(** * LineTokens: the packed token buffer of one line and its cursor

    A shallow embedding of [src/vs/editor/common/core/lineTokens.ts]
    (classes [LineTokens] and [LineTokensIterator]) together with the
    properties the design document states about them.

    Conventions of the embedding.
    - A JavaScript number that the class uses as an index or an offset is an
      integer, modelled as [Z].  The 32-bit operators [<<] and [>>>] are
      written out with their wrap-around ([shl], [ushr]).
    - A [Uint32Array] is a [list Z]; reading outside the array gives
      [undefined], modelled as [None]; writing outside the array does
      nothing, and a written value is first converted with [ToUint32].
    - The text of a line is a [string]; [text.length] is [String.length].
    - Cursors are mutable objects: they live in a store ([heap]) and every
      method that touches one is a computation over that store. *)

From Equations Require Import Equations.
From stdpp Require Import base option list gmap strings.
From Stdlib Require Import ZArith Lia Bool.

Local Open Scope Z_scope.

(** ** Numbers and typed arrays *)

Module JS.

(** [ToUint32] on an integer. *)
Definition to_uint32 (x : Z) : Z := x mod 2 ^ 32.

(** [ToInt32] on an integer. *)
Definition to_int32 (x : Z) : Z := (x + 2 ^ 31) mod 2 ^ 32 - 2 ^ 31.

(** [x << n] for [0 <= n < 32]. *)
Definition shl (x n : Z) : Z := to_int32 (Z.shiftl (to_int32 x) n).

(** [x >>> n] for [0 <= n < 32]. *)
Definition ushr (x n : Z) : Z := Z.shiftr (to_uint32 x) n.

(** A value read from a typed array: a number, or [undefined] ([None]). *)
Definition value : Type := option Z.

(** [ToUint32] on a value about to be stored: [undefined] becomes [NaN],
    which is stored as [0]. *)
Definition store_uint32 (v : value) : Z :=
  match v with
  | Some x => to_uint32 x
  | None => 0
  end.

(** [a[i]] on a typed array. *)
Definition get (a : list Z) (i : Z) : value :=
  if i <? 0 then None else a !! Z.to_nat i.

(** [a[i] = v] on a typed array (the length never changes). *)
Definition set (a : list Z) (i : Z) (v : value) : list Z :=
  if i <? 0 then a else <[Z.to_nat i := store_uint32 v]> a.

(** [a !== b] on two values read from typed arrays. *)
Definition strict_neq (a b : value) : bool :=
  match a, b with
  | Some x, Some y => negb (x =? y)
  | None, None => false
  | _, _ => true
  end.

(** [a.length]. *)
Definition length (a : list Z) : Z := Z.of_nat (List.length a).

(** Array lengths on which the 32-bit index arithmetic of the class does
    not wrap around. *)
Definition index_safe (a : list Z) : Prop := length a < 2 ^ 31.

(** The elements of a [Uint32Array] are unsigned 32-bit integers. *)
Definition uint32_elements (a : list Z) : Prop :=
  Forall (fun x => 0 <= x < 2 ^ 32) a.

End JS.

(** ** The token buffer *)

(** The buffer keeps the packed array and the text.  The two other fields of
    the class, [_tokensCount] and [_textLength], are [readonly] and computed
    from these by the constructor; they are the functions below. *)
Record LineTokens : Type := mkLineTokens {
  _tokens : list Z;
  _text : string
}.

Definition _tokensCount (this : LineTokens) : Z :=
  JS.ushr (JS.length (_tokens this)) 1.

Definition _textLength (this : LineTokens) : Z :=
  Z.of_nat (String.length (_text this)).

Definition getLineContent (this : LineTokens) : string := _text this.

Definition getCount (this : LineTokens) : Z := _tokensCount this.

Definition getStartOffset (this : LineTokens) (tokenIndex : Z) : JS.value :=
  if 0 <? tokenIndex
  then JS.get (_tokens this) (JS.shl (tokenIndex - 1) 1)
  else Some 0.

Definition getEndOffset (this : LineTokens) (tokenIndex : Z) : JS.value :=
  JS.get (_tokens this) (JS.shl tokenIndex 1).

(** The metadata word of a token, as every metadata accessor reads it:
    [this._tokens[(tokenIndex << 1) + 1]]. *)
Definition getMetadata (this : LineTokens) (tokenIndex : Z) : JS.value :=
  JS.get (_tokens this) (JS.shl tokenIndex 1 + 1).

(** ** LineTokens.convertToEndOffset *)

(** The body of the [for] loop, run [n] more times from [tokenIndex]. *)
Fixpoint convertToEndOffset_loop (n : nat) (tokenIndex : Z) (tokens : list Z)
  : list Z :=
  match n with
  | O => tokens
  | S n' =>
      convertToEndOffset_loop n' (tokenIndex + 1)
        (JS.set tokens (JS.shl tokenIndex 1)
                (JS.get tokens (JS.shl (tokenIndex + 1) 1)))
  end.

(** The array after the call; the function returns nothing. *)
Definition convertToEndOffset (tokens : list Z) (lineTextLength : Z) : list Z :=
  let tokenCount := JS.ushr (JS.length tokens) 1 in
  let lastTokenIndex := tokenCount - 1 in
  let tokens' := convertToEndOffset_loop (Z.to_nat lastTokenIndex) 0 tokens in
  JS.set tokens' (JS.shl lastTokenIndex 1) (Some lineTextLength).

(** The even slots of a packed array, in order. *)
Fixpoint even_slots (tokens : list Z) : list Z :=
  match tokens with
  | x :: _ :: rest => x :: even_slots rest
  | [x] => [x]
  | [] => []
  end.

(** What the design document asks of the conversion: the running sums of the
    token lengths. *)
Fixpoint cumulative_from (acc : Z) (lengths : list Z) : list Z :=
  match lengths with
  | [] => []
  | l :: rest => (acc + l) :: cumulative_from (acc + l) rest
  end.

Definition cumulative_end_offsets (lengths : list Z) : list Z :=
  cumulative_from 0 lengths.

(** ** LineTokens.equals *)

(** Modelled from the spec: the class [ViewLineToken] is not part of the
    sources at hand.  A materialized token, as the rendering layer receives
    it: its start offset, its end offset and its metadata word. *)
Record ViewLineToken : Type := mkViewLineToken {
  vStartOffset : Z;
  vEndOffset : Z;
  vMetadata : Z
}.

(** The two implementations of the interface [IViewLineTokens]; [equals]
    tells them apart with [instanceof]. *)
Inductive IViewLineTokens : Type :=
| AsLineTokens (lt : LineTokens)
| AsViewLineTokens (inflated : list ViewLineToken).

(** The [for] loop of [equals], run [n] more times from index [i]; [false]
    is the early [return false]. *)
Fixpoint equals_loop (n : nat) (i : Z) (this_tokens other_tokens : list Z)
  : bool :=
  match n with
  | O => true
  | S n' =>
      if JS.strict_neq (JS.get this_tokens i) (JS.get other_tokens i)
      then false
      else equals_loop n' (i + 1) this_tokens other_tokens
  end.

Definition equals (this : LineTokens) (other : IViewLineTokens) : bool :=
  match other with
  | AsLineTokens other =>
      if negb (String.eqb (_text this) (_text other)) then false
      else if negb (_tokensCount this =? _tokensCount other) then false
      else equals_loop (List.length (_tokens this)) 0
                       (_tokens this) (_tokens other)
  | AsViewLineTokens _ => false
  end.

(** ** Cursors and the store they live in *)

Record LineTokensIterator : Type := mkLineTokensIterator {
  _source : LineTokens;
  _tokenCount : Z;
  _tokenIndex : Z;
  _metadata : JS.value;
  _startOffset : JS.value;
  _endOffset : JS.value
}.

(** A reference to a cursor object; [null] is [None] of [option ref]. *)
Definition ref : Type := nat.

Abbreviation heap := (gmap nat LineTokensIterator).

(** Computations over the store.  [None] is a use of a reference that the
    store does not hold, which no JavaScript program can produce. *)
Definition M (A : Type) : Type := heap -> option (A * heap).

Definition M_ret {A : Type} (a : A) : M A := fun h => Some (a, h).

Definition M_bind {A B : Type} (c : M A) (k : A -> M B) : M B :=
  fun h => match c h with
           | Some (a, h') => k a h'
           | None => None
           end.

Notation "'let!' x ':=' c 'in' k" := (M_bind c (fun x => k))
  (at level 10, x name, c at level 100, k at level 200).

Definition read (this : ref) : M LineTokensIterator :=
  fun h => match h !! this with
           | Some it => Some (it, h)
           | None => None
           end.

Definition alloc (it : LineTokensIterator) : M ref :=
  fun h => let l := fresh (dom h) in Some (l, <[l := it]> h).

Definition hasPrev (it : LineTokensIterator) : bool := 0 <? _tokenIndex it.

Definition hasNext (it : LineTokensIterator) : bool :=
  _tokenIndex it + 1 <? _tokenCount it.

(** [new LineTokensIterator(...)]: a new object with every field set. *)
Definition new_LineTokensIterator (source : LineTokens)
    (tokenIndex tokenCount : Z) (startOffset endOffset metadata : JS.value)
  : M ref :=
  alloc {| _source := source; _tokenCount := tokenCount;
           _tokenIndex := tokenIndex; _metadata := metadata;
           _startOffset := startOffset; _endOffset := endOffset |}.

Definition _set (this : ref) (tokenIndex : Z)
    (startOffset endOffset metadata : JS.value) : M unit :=
  fun h => match h !! this with
           | Some it =>
               Some (tt, <[this := {| _source := _source it;
                                      _tokenCount := _tokenCount it;
                                      _tokenIndex := tokenIndex;
                                      _metadata := metadata;
                                      _startOffset := startOffset;
                                      _endOffset := endOffset |}]> h)
           | None => None
           end.

Definition clone (this : ref) : M ref :=
  let! it := read this in
  new_LineTokensIterator (_source it) (_tokenIndex it) (_tokenCount it)
    (_startOffset it) (_endOffset it) (_metadata it).

(** [tokenAt(tokenIndex, dest?)]: [dest] is [None] when the argument is
    left out. *)
Definition tokenAt (this : LineTokens) (tokenIndex : Z) (dest : option ref)
  : M ref :=
  let startOffset :=
    if 0 <? tokenIndex
    then JS.get (_tokens this) (JS.shl (tokenIndex - 1) 1)
    else Some 0 in
  let endOffset := JS.get (_tokens this) (JS.shl tokenIndex 1) in
  let metadata := JS.get (_tokens this) (JS.shl tokenIndex 1 + 1) in
  match dest with
  | Some dest =>
      let! _ := _set dest tokenIndex startOffset endOffset metadata in
      M_ret dest
  | None =>
      new_LineTokensIterator this tokenIndex (_tokensCount this)
        startOffset endOffset metadata
  end.

Definition prev (this : ref) : M (option ref) :=
  let! it := read this in
  if negb (hasPrev it) then M_ret None
  else let! _ := tokenAt (_source it) (_tokenIndex it - 1) (Some this) in
       M_ret (Some this).

Definition next (this : ref) : M (option ref) :=
  let! it := read this in
  if negb (hasNext it) then M_ret None
  else let! _ := tokenAt (_source it) (_tokenIndex it + 1) (Some this) in
       M_ret (Some this).

Definition firstToken (this : LineTokens) : M (option ref) :=
  if _textLength this =? 0 then M_ret None
  else let! l := tokenAt this 0 None in M_ret (Some l).

Definition lastToken (this : LineTokens) : M (option ref) :=
  if _textLength this =? 0 then M_ret None
  else let! l := tokenAt this (_tokensCount this - 1) None in M_ret (Some l).

(** A cursor of [source] holding what the accessors of the buffer answer
    for [tokenIndex]. *)
Definition snapshot (source : LineTokens) (tokenCount tokenIndex : Z)
  : LineTokensIterator :=
  {| _source := source; _tokenCount := tokenCount;
     _tokenIndex := tokenIndex;
     _metadata := getMetadata source tokenIndex;
     _startOffset := getStartOffset source tokenIndex;
     _endOffset := getEndOffset source tokenIndex |}.

(** A traversal step, and a run of steps on one cursor. *)
Inductive move : Type := MovePrev | MoveNext.

Definition step (this : ref) (m : move) : M (option ref) :=
  match m with
  | MovePrev => prev this
  | MoveNext => next this
  end.

Fixpoint run_moves (this : ref) (ms : list move) : M unit :=
  match ms with
  | [] => M_ret tt
  | m :: ms' => let! _ := step this m in run_moves this ms'
  end.

(** ** Token ranges and well-formed buffers *)

(** The tokens of a packed array as triples (start offset, end offset,
    metadata word), the first one starting at [start]. *)
Fixpoint ranges_from (start : Z) (tokens : list Z) : list (Z * Z * Z) :=
  match tokens with
  | e :: m :: rest => (start, e, m) :: ranges_from e rest
  | _ => []
  end.

Definition ranges (this : LineTokens) : list (Z * Z * Z) :=
  ranges_from 0 (_tokens this).

Definition nonempty_range (t : Z * Z * Z) : bool :=
  let '(s, e, _) := t in s <? e.

(** The shape the data model gives a packed array: two slots for every
    token, and a length on which the index arithmetic stays inside 32
    bits. *)
Definition paired (this : LineTokens) : bool :=
  (JS.length (_tokens this) <? 2 ^ 31) && Z.even (JS.length (_tokens this)).

(** The invariants of the data model: the array holds two slots for each of
    its [N >= 1] tokens, every token is a non-empty run of characters (so
    the end offsets increase strictly from the start [0] of the line), except
    for the single empty token of an empty line, and the last token ends at
    the length of the text. *)
Definition well_formed (this : LineTokens) : bool :=
  paired this
  && (1 <=? _tokensCount this)
  && (forallb nonempty_range (ranges this)
      || ((_tokensCount this =? 1) && (_textLength this =? 0)))
  && bool_decide (getEndOffset this (_tokensCount this - 1)
                  = Some (_textLength this)).

(** ** The metadata codec *)

(** The five fields of a packed metadata word, one for each metadata getter
    of the cursor. *)
Inductive field : Type :=
| LanguageId | TokenType | FontStyle | Foreground | Background.

(** Modelled from the spec: the module [tokensBinaryEncoding]
    ([TokenMetadata]) is not part of the sources at hand, and the design
    document leaves the bit widths and offsets open.  A layout gives every
    field its offset and its width. *)
Record layout : Type := mkLayout {
  offset_of : field -> Z;
  width_of : field -> Z
}.

(** Modelled from the spec: the five fields, in the order [encode] takes
    them. *)
Definition fields : list field :=
  [LanguageId; TokenType; FontStyle; Foreground; Background].

(** Modelled from the spec: are [f] and [g] the same field? *)
Definition field_eqb (f g : field) : bool :=
  match f, g with
  | LanguageId, LanguageId | TokenType, TokenType | FontStyle, FontStyle
  | Foreground, Foreground | Background, Background => true
  | _, _ => false
  end.

(** Modelled from the spec: a field lies inside the 32 bits of a metadata
    word. *)
Definition field_inside (L : layout) (f : field) : bool :=
  (0 <=? offset_of L f) && (0 <=? width_of L f)
  && (offset_of L f + width_of L f <=? 32).

(** Modelled from the spec: two different fields do not overlap. *)
Definition fields_apart (L : layout) (f g : field) : bool :=
  field_eqb f g
  || (offset_of L f + width_of L f <=? offset_of L g)
  || (offset_of L g + width_of L g <=? offset_of L f).

(** Modelled from the spec: the five bit-fields of a layout are inside the
    word and pairwise apart. *)
Definition layout_ok (L : layout) : bool :=
  forallb (fun f => field_inside L f && forallb (fields_apart L f) fields)
          fields.

(** Modelled from the spec: a field value fits its width. *)
Definition fits (L : layout) (f : field) (v : Z) : Prop :=
  0 <= v < 2 ^ width_of L f.

(** Modelled from the spec: [encode] of [TokenMetadata], which is not part
    of the sources at hand, shifts each field to its position and ORs the
    five together into a 32-bit unsigned word. *)
Definition encode (L : layout) (languageId tokenType fontStyle
                                foregroundId backgroundId : Z) : Z :=
  JS.to_uint32
    (Z.lor (Z.shiftl languageId (offset_of L LanguageId))
       (Z.lor (Z.shiftl tokenType (offset_of L TokenType))
          (Z.lor (Z.shiftl fontStyle (offset_of L FontStyle))
             (Z.lor (Z.shiftl foregroundId (offset_of L Foreground))
                    (Z.shiftl backgroundId (offset_of L Background)))))).

(** Modelled from the spec: the mask of a field, the bits of its width at
    its offset. *)
Definition mask (L : layout) (f : field) : Z :=
  Z.shiftl (Z.ones (width_of L f)) (offset_of L f).

(** Modelled from the spec: the mask-and-shift extraction every decoder of
    [TokenMetadata], which is not part of the sources at hand, performs. *)
Definition decode (L : layout) (f : field) (word : Z) : Z :=
  Z.shiftr (Z.land word (mask L f)) (offset_of L f).

(** Modelled from the spec: the five decoders of [TokenMetadata]. *)
Definition decodeLanguageId (L : layout) (word : Z) : Z :=
  decode L LanguageId word.

(** Modelled from the spec: see [decodeLanguageId]. *)
Definition decodeTokenType (L : layout) (word : Z) : Z :=
  decode L TokenType word.

(** Modelled from the spec: see [decodeLanguageId]. *)
Definition decodeFontStyle (L : layout) (word : Z) : Z :=
  decode L FontStyle word.

(** Modelled from the spec: see [decodeLanguageId]. *)
Definition decodeForeground (L : layout) (word : Z) : Z :=
  decode L Foreground word.

(** Modelled from the spec: see [decodeLanguageId]. *)
Definition decodeBackground (L : layout) (word : Z) : Z :=
  decode L Background word.

(** ** ViewLineTokenFactory *)

(** Modelled from the spec: the comparison the search makes at a token,
    whose end offset is element [2 * index] of the array: does the token end
    at or before [offset]?  A slot outside the array compares as [false]. *)
Definition ends_at_or_before (tokens : list Z) (index offset : Z) : bool :=
  match JS.get tokens (2 * index) with
  | Some e => e <=? offset
  | None => false
  end.

(** Modelled from the spec: [ViewLineTokenFactory.findIndexInSegmentsArray]
    is not part of the sources at hand.  A binary search over the end
    offsets between the token indices [low] and [high]: a token that ends at
    or before [offset] sends the search to the tokens after it, so an offset
    on a boundary lands in the next token, and the search never leaves
    [high], the last token. *)
Equations? search (tokens : list Z) (offset low high : Z) : Z
  by wf (Z.to_nat (high - low)) lt :=
  search tokens offset low high with decide (low < high) => {
    | right _ => low
    | left _ with ends_at_or_before tokens (low + (high - low) / 2) offset => {
        | true => search tokens offset (low + (high - low) / 2 + 1) high
        | false => search tokens offset low (low + (high - low) / 2) } }.
Proof.
  all: assert (0 <= (high - low) / 2 < high - low)
         by (split; [apply Z.div_pos | apply Z.div_lt_upper_bound]; lia);
       lia.
Qed.

(** Modelled from the spec: an offset at or below [0] is in token [0];
    any other offset is searched among the tokens [0 .. N-1]. *)
Definition findIndexInSegmentsArray (tokens : list Z) (offset : Z) : Z :=
  if offset <=? 0 then 0
  else search tokens offset 0 (JS.ushr (JS.length tokens) 1 - 1).

Definition findTokenIndexAtOffset (this : LineTokens) (offset : Z) : Z :=
  findIndexInSegmentsArray (_tokens this) offset.

Definition findTokenAtOffset (this : LineTokens) (offset : Z) : M ref :=
  let tokenIndex := findTokenIndexAtOffset this offset in
  tokenAt this tokenIndex None.

(** Modelled from the spec: one token clipped to the slice
    [[startOffset, endOffset)] and shifted by [deltaOffset]; a token that
    keeps no character yields nothing. *)
Definition clip (startOffset endOffset deltaOffset : Z) (t : Z * Z * Z)
  : option ViewLineToken :=
  let '(s, e, m) := t in
  let s' := Z.max s startOffset in
  let e' := Z.min e endOffset in
  if s' <? e'
  then Some {| vStartOffset := s' + deltaOffset;
               vEndOffset := e' + deltaOffset;
               vMetadata := m |}
  else None.

(** Modelled from the spec: [ViewLineTokenFactory.sliceAndInflate] is not
    part of the sources at hand.  The slice is first cut to the range
    [[0, lineLength)] of the buffer; then every token, in order, is clipped
    to it. *)
Definition ViewLineTokenFactory_sliceAndInflate (tokens : list Z)
    (startOffset endOffset deltaOffset lineLength : Z) : list ViewLineToken :=
  omap (clip (Z.max startOffset 0) (Z.min endOffset lineLength) deltaOffset)
       (ranges_from 0 tokens).

Definition _sliceAndInflate (this : LineTokens)
    (startOffset endOffset deltaOffset : Z) : list ViewLineToken :=
  ViewLineTokenFactory_sliceAndInflate (_tokens this) startOffset endOffset
    deltaOffset (_textLength this).

(** [new ViewLineTokens(...)] wraps the list of materialized tokens. *)
Definition sliceAndInflate (this : LineTokens)
    (startOffset endOffset deltaOffset : Z) : IViewLineTokens :=
  AsViewLineTokens (_sliceAndInflate this startOffset endOffset deltaOffset).

(** ** Sample data *)

Definition sample_tokens : list Z := [3; 101; 7; 102; 9; 103].

Definition sample_line : LineTokens :=
  {| _tokens := sample_tokens; _text := "let x = 1" |}.

Definition sample_layout : layout :=
  {| offset_of := fun f => match f with
                           | LanguageId => 0 | TokenType => 8
                           | FontStyle => 11 | Foreground => 14
                           | Background => 23
                           end;
     width_of := fun f => match f with
                          | LanguageId => 8 | TokenType => 3
                          | FontStyle => 3 | Foreground => 9
                          | Background => 9
                          end |}.

(** ** Cursor states *)

(** A cursor whose cached fields are what its buffer holds at its index. *)
Definition consistent (it : LineTokensIterator) : Prop :=
  it = snapshot (_source it) (_tokenCount it) (_tokenIndex it).

(** A cursor on one of the tokens it counts. *)
Definition in_range (it : LineTokensIterator) : Prop :=
  0 <= _tokenIndex it < _tokenCount it.

(** ** Arrays of start offsets *)

(** A list of numbers in strictly increasing order. *)
Fixpoint increasing (l : list Z) : bool :=
  match l with
  | a :: ((b :: _) as rest) => (a <? b) && increasing rest
  | _ => true
  end.

(** The input [convertToEndOffset] is written for: an array of unsigned
    32-bit numbers, two slots for each of its [N >= 1] tokens, whose even
    slots are the start offsets of the tokens, from [0] upwards and below
    the length of the line; an empty line has the one token that starts
    at [0]. *)
Definition start_offsets (tokens : list Z) (lineTextLength : Z) : bool :=
  (JS.length tokens <? 2 ^ 31) && Z.even (JS.length tokens)
  && (1 <=? JS.ushr (JS.length tokens) 1)
  && forallb (fun x => (0 <=? x) && (x <? 2 ^ 32)) tokens
  && bool_decide (head tokens = Some 0)
  && (increasing (even_slots tokens ++ [lineTextLength])
      || ((JS.ushr (JS.length tokens) 1 =? 1) && (lineTextLength =? 0)))
  && (lineTextLength <? 2 ^ 32).

(** * Properties *)

(** ** 32-bit arithmetic and array access *)

Lemma to_int32_small (x : Z) : - 2 ^ 31 <= x < 2 ^ 31 -> JS.to_int32 x = x.
Proof.
  intros Hx. unfold JS.to_int32.
  rewrite Z.mod_small by lia. lia.
Qed.

Lemma shl_1_small (i : Z) : - 2 ^ 30 <= i < 2 ^ 30 -> JS.shl i 1 = 2 * i.
Proof.
  intros Hi. unfold JS.shl.
  rewrite (to_int32_small i) by lia.
  rewrite Z.shiftl_mul_pow2 by lia.
  rewrite to_int32_small; lia.
Qed.

Lemma ushr_1_small (n : Z) : 0 <= n < 2 ^ 32 -> JS.ushr n 1 = n / 2.
Proof.
  intros Hn. unfold JS.ushr, JS.to_uint32.
  rewrite Z.mod_small by lia.
  rewrite Z.shiftr_div_pow2 by lia. reflexivity.
Qed.

Lemma length_nonneg (a : list Z) : 0 <= JS.length a.
Proof. unfold JS.length. lia. Qed.

Lemma tokenCount_safe (a : list Z) :
  JS.index_safe a -> JS.ushr (JS.length a) 1 = JS.length a / 2.
Proof.
  intros Ha. apply ushr_1_small.
  pose proof (length_nonneg a). unfold JS.index_safe in Ha. lia.
Qed.

Lemma get_nonneg (a : list Z) (i : Z) :
  0 <= i -> JS.get a i = a !! Z.to_nat i.
Proof. intros Hi. unfold JS.get. destruct (Z.ltb_spec i 0); [lia | done]. Qed.

Lemma get_in_range (a : list Z) (i : Z) :
  0 <= i < JS.length a -> exists x, JS.get a i = Some x.
Proof.
  intros [Hi Hlen]. rewrite get_nonneg by lia.
  destruct (lookup_lt_is_Some_2 a (Z.to_nat i)) as [x Hx].
  - unfold JS.length in Hlen. lia.
  - exists x. exact Hx.
Qed.

Lemma get_out_of_range (a : list Z) (i : Z) :
  JS.length a <= i -> JS.get a i = None.
Proof.
  intros Hi. pose proof (length_nonneg a).
  rewrite get_nonneg by lia. apply lookup_ge_None.
  unfold JS.length in Hi. lia.
Qed.

Lemma get_Some_range (a : list Z) (i x : Z) :
  JS.get a i = Some x -> 0 <= i < JS.length a.
Proof.
  unfold JS.get, JS.length. destruct (Z.ltb_spec i 0); [discriminate |].
  intros Hx. apply lookup_lt_Some in Hx. lia.
Qed.

Lemma length_set (a : list Z) (i : Z) (v : JS.value) :
  JS.length (JS.set a i v) = JS.length a.
Proof.
  unfold JS.set, JS.length. destruct (i <? 0); [done |].
  by rewrite length_insert.
Qed.

Lemma get_set_ne (a : list Z) (i j : Z) (v : JS.value) :
  i <> j -> JS.get (JS.set a i v) j = JS.get a j.
Proof.
  intros Hne. unfold JS.get, JS.set.
  destruct (Z.ltb_spec j 0); [done |].
  destruct (Z.ltb_spec i 0); [done |].
  apply list_lookup_insert_ne. lia.
Qed.

Lemma get_set_eq (a : list Z) (i : Z) (v : JS.value) :
  0 <= i < JS.length a ->
  JS.get (JS.set a i v) i = Some (JS.store_uint32 v).
Proof.
  intros [Hi Hlen]. unfold JS.get, JS.set.
  destruct (Z.ltb_spec i 0); [lia |].
  apply list_lookup_insert_eq. unfold JS.length in Hlen. lia.
Qed.

Lemma get_uint32 (a : list Z) (i x : Z) :
  JS.uint32_elements a -> JS.get a i = Some x -> JS.store_uint32 (Some x) = x.
Proof.
  intros Ha Hx. unfold JS.get in Hx.
  destruct (i <? 0); [discriminate |].
  unfold JS.uint32_elements in Ha. rewrite Forall_lookup in Ha.
  specialize (Ha _ _ Hx). simpl. unfold JS.to_uint32.
  apply Z.mod_small. lia.
Qed.

(** ** Start and end offsets *)

(** C10: [getStartOffset] answers [0] at every index at or below [0], the
    negative ones included: its guard is [tokenIndex > 0], and the array is
    not read at all. *)
Theorem getStartOffset_nonpositive (this : LineTokens) (tokenIndex : Z) :
  tokenIndex <= 0 -> getStartOffset this tokenIndex = Some 0.
Proof.
  intros Hle. unfold getStartOffset.
  destruct (Z.ltb_spec 0 tokenIndex); [lia | reflexivity].
Qed.

Lemma getStartOffset_nonpositive_witness :
  -3 <= 0 /\ getStartOffset sample_line (-3) = Some 0.
Proof. split; [lia | apply getStartOffset_nonpositive; lia]. Defined.

(** C4: the first token starts at [0], and every later token of a buffer
    starts where the token before it ends: both accessors read the same slot
    of the packed array. *)
Theorem start_is_previous_end (this : LineTokens) :
  getStartOffset this 0 = Some 0 /\
  forall i, 1 <= i < getCount this ->
            getStartOffset this i = getEndOffset this (i - 1).
Proof.
  split; [reflexivity |].
  intros i [Hi _]. unfold getStartOffset, getEndOffset.
  destruct (Z.ltb_spec 0 i); [reflexivity | lia].
Qed.

Lemma start_is_previous_end_witness :
  1 <= 2 < getCount sample_line /\
  getStartOffset sample_line 2 = getEndOffset sample_line (2 - 1).
Proof.
  assert (Hi : 1 <= 2 < getCount sample_line)
    by (vm_compute; split; [discriminate | reflexivity]).
  split; [exact Hi |].
  destruct (start_is_previous_end sample_line) as [_ Hnext].
  apply Hnext. exact Hi.
Defined.

(** ** convertToEndOffset *)

Lemma uint32_elements_set (a : list Z) (i : Z) (v : JS.value) :
  JS.uint32_elements a -> JS.uint32_elements (JS.set a i v).
Proof.
  intros Ha. unfold JS.set. destruct (i <? 0); [exact Ha |].
  apply Forall_insert; [exact Ha |].
  destruct v as [x |]; simpl; [| lia].
  unfold JS.to_uint32. apply Z.mod_pos_bound. lia.
Qed.

(** The loop moves every even slot it visits one token down and touches
    nothing else. *)
Lemma convertToEndOffset_loop_spec (n : nat) :
  forall (i0 : Z) (tokens : list Z),
    0 <= i0 -> i0 + Z.of_nat n < 2 ^ 30 ->
    2 * (i0 + Z.of_nat n) < JS.length tokens ->
    JS.uint32_elements tokens ->
    let r := convertToEndOffset_loop n i0 tokens in
    JS.length r = JS.length tokens /\
    (forall j, i0 <= j < i0 + Z.of_nat n ->
               JS.get r (2 * j) = JS.get tokens (2 * j + 2)) /\
    (forall k, (forall j, i0 <= j < i0 + Z.of_nat n -> k <> 2 * j) ->
               JS.get r k = JS.get tokens k).
Proof.
  induction n as [| n IH]; intros i0 tokens Hi0 Hsmall Hlen Hu32; simpl.
  - split; [reflexivity | split; [intros j Hj; lia | reflexivity]].
  - rewrite !shl_1_small by lia.
    set (tokens1 := JS.set tokens (2 * i0) (JS.get tokens (2 * (i0 + 1)))).
    assert (Hlen1 : JS.length tokens1 = JS.length tokens)
      by apply length_set.
    destruct (IH (i0 + 1) tokens1) as (IHlen & IHmoved & IHkept);
      [lia | lia | lia | by apply uint32_elements_set |].
    split; [congruence |]. split.
    + intros j Hj. destruct (decide (j = i0)) as [-> | Hne].
      * rewrite IHkept by (intros j Hj'; lia).
        unfold tokens1. rewrite get_set_eq by lia.
        destruct (get_in_range tokens (2 * (i0 + 1))) as [x Hx]; [lia |].
        rewrite Hx. rewrite (get_uint32 _ _ _ Hu32 Hx).
        rewrite <- Hx. f_equal. lia.
      * rewrite IHmoved by lia. unfold tokens1.
        apply get_set_ne. lia.
    + intros k Hk. rewrite IHkept by (intros j Hj; apply Hk; lia).
      unfold tokens1. apply get_set_ne.
      intros Heq. apply (Hk i0); lia.
Qed.

(** C1, as the code has it: the even slots that go in are start offsets.
    The call moves every even slot one token down (slot [2i] receives what
    slot [2(i+1)] held, the start of the next token and so the end of token
    [i]), stores [lineTextLength] in the last even slot and leaves every
    other slot alone.  Start offsets [0, 3, 7] in a text of length 9 become
    the end offsets [3, 7, 9]. *)
Theorem convertToEndOffset_shifts (tokens : list Z) (lineTextLength : Z) :
  JS.index_safe tokens ->
  JS.uint32_elements tokens ->
  let N := JS.ushr (JS.length tokens) 1 in
  let r := convertToEndOffset tokens lineTextLength in
  JS.length r = JS.length tokens /\
  (forall i, 0 <= i < N - 1 ->
             JS.get r (2 * i) = JS.get tokens (2 * (i + 1))) /\
  (1 <= N -> JS.get r (2 * (N - 1)) = Some (JS.to_uint32 lineTextLength)) /\
  (forall k, Z.odd k = true \/ 2 * N <= k -> JS.get r k = JS.get tokens k) /\
  even_slots (convertToEndOffset [0; 101; 3; 102; 7; 103] 9) = [3; 7; 9].
Proof.
  intros Hsafe Hu32 N r.
  assert (HN : N = JS.length tokens / 2) by (by apply tokenCount_safe).
  pose proof (length_nonneg tokens) as Hlen0.
  unfold JS.index_safe in Hsafe.
  assert (HN2 : 0 <= N /\ 2 * N <= JS.length tokens /\ N < 2 ^ 30).
  { rewrite HN. repeat split.
    - apply Z.div_pos; lia.
    - apply Z.mul_div_le. lia.
    - apply Z.div_lt_upper_bound; lia. }
  subst r. unfold convertToEndOffset. fold N.
  destruct (Z.le_gt_cases N 0) as [Hzero | Hpos].
  - (* no token: the loop does not run and the store falls outside *)
    assert (N = 0) as -> by lia. simpl.
    repeat split; try reflexivity; intros; lia.
  - destruct (convertToEndOffset_loop_spec (Z.to_nat (N - 1)) 0 tokens)
      as (Llen & Lmoved & Lkept); [lia | lia | lia | exact Hu32 |].
    rewrite shl_1_small by lia.
    set (tokens' := convertToEndOffset_loop (Z.to_nat (N - 1)) 0 tokens) in *.
    split; [by rewrite length_set |]. split; [| split; [| split]].
    + intros i Hi. rewrite get_set_ne by lia.
      rewrite Lmoved by lia. f_equal. lia.
    + intros _. rewrite get_set_eq by lia. reflexivity.
    + intros k Hk. rewrite get_set_ne.
      * apply Lkept. intros j Hj ->.
        destruct Hk as [Hodd | Hbig]; [| lia].
        rewrite Z.odd_mul in Hodd. discriminate.
      * intros <-. destruct Hk as [Hodd | Hbig]; [| lia].
        rewrite Z.odd_mul in Hodd. discriminate.
    + reflexivity.
Qed.

Lemma convertToEndOffset_shifts_witness :
  JS.index_safe sample_tokens /\ JS.uint32_elements sample_tokens /\
  JS.get (convertToEndOffset sample_tokens 12) (2 * 0)
  = JS.get sample_tokens (2 * (0 + 1)) /\
  JS.get (convertToEndOffset sample_tokens 12) (2 * (3 - 1)) = Some 12.
Proof.
  assert (Hsafe : JS.index_safe sample_tokens) by (vm_compute; reflexivity).
  assert (Hu32 : JS.uint32_elements sample_tokens)
    by (repeat constructor; lia).
  split; [exact Hsafe |]. split; [exact Hu32 |].
  destruct (convertToEndOffset_shifts sample_tokens 12 Hsafe Hu32)
    as (_ & Hmoved & Hlast & _).
  split.
  - apply Hmoved. vm_compute. split; [discriminate | reflexivity].
  - apply Hlast. vm_compute. discriminate.
Defined.

(** C1, as the design document states it, fails: on the token lengths
    [3, 4, 2] in a text of length 9 the even slots come out as [4, 2, 9],
    not as the running sums [3, 7, 9]. *)
Lemma convertToEndOffset_lengths_counterexample :
  cumulative_end_offsets [3; 4; 2] = [3; 7; 9] /\
  even_slots (convertToEndOffset [3; 101; 4; 102; 2; 103] 9) = [4; 2; 9] /\
  even_slots (convertToEndOffset [3; 101; 4; 102; 2; 103] 9)
  <> cumulative_end_offsets [3; 4; 2].
Proof. repeat split. vm_compute. discriminate. Qed.

(** ** equals *)

Lemma strict_neq_false (a b : JS.value) :
  JS.strict_neq a b = false <-> a = b.
Proof.
  destruct a as [x |], b as [y |]; simpl; split; try done.
  - intros H. apply negb_false_iff, Z.eqb_eq in H. by subst.
  - intros [= ->]. apply negb_false_iff, Z.eqb_refl.
Qed.

(** The loop answers [true] exactly when the two arrays agree on every index
    it visits. *)
Lemma equals_loop_true (n : nat) :
  forall (i : Z) (a b : list Z),
    equals_loop n i a b = true <->
    forall k, i <= k < i + Z.of_nat n -> JS.get a k = JS.get b k.
Proof.
  induction n as [| n IH]; intros i a b; simpl.
  - split; [intros _ k Hk; lia | done].
  - destruct (JS.strict_neq (JS.get a i) (JS.get b i)) eqn:Hneq.
    + split; [done |]. intros Hall.
      assert (Heq : JS.get a i = JS.get b i) by (apply Hall; lia).
      apply strict_neq_false in Heq. congruence.
    + apply strict_neq_false in Hneq. rewrite IH. split.
      * intros Hall k Hk. destruct (decide (k = i)) as [-> | Hne];
          [exact Hneq | apply Hall; lia].
      * intros Hall k Hk. apply Hall. lia.
Qed.

Lemma equals_true (a b : LineTokens) :
  equals a (AsLineTokens b) = true <->
  _text a = _text b /\ _tokensCount a = _tokensCount b /\
  forall k, 0 <= k < JS.length (_tokens a) ->
            JS.get (_tokens a) k = JS.get (_tokens b) k.
Proof.
  unfold equals.
  destruct (String.eqb_spec (_text a) (_text b)) as [Htext | Htext]; simpl;
    [| split; [done | intros [? _]; done]].
  destruct (Z.eqb_spec (_tokensCount a) (_tokensCount b)) as [Hcnt | Hcnt];
    simpl; [| split; [done | intros (_ & ? & _); done]].
  rewrite equals_loop_true. unfold JS.length. simpl. split.
  - intros Hall. repeat split; [done | done |].
    intros k Hk. apply Hall. lia.
  - intros (_ & _ & Hall) k Hk. apply Hall. lia.
Qed.

(** Two arrays of one length that agree on every index are the same. *)
Lemma get_ext (a b : list Z) :
  JS.length a = JS.length b ->
  (forall k, 0 <= k < JS.length a -> JS.get a k = JS.get b k) ->
  a = b.
Proof.
  intros Hlen Hall. apply list_eq. intros i.
  destruct (decide (i < List.length a)%nat) as [Hi | Hi].
  - specialize (Hall (Z.of_nat i)).
    rewrite !get_nonneg, Nat2Z.id in Hall by lia.
    apply Hall. unfold JS.length. lia.
  - unfold JS.length in Hlen.
    rewrite !lookup_ge_None_2; [done | lia | lia].
Qed.

Lemma paired_length (a : LineTokens) :
  paired a = true -> JS.length (_tokens a) = 2 * _tokensCount a.
Proof.
  unfold paired, _tokensCount. intros [Hsafe Heven]%andb_true_iff.
  apply Z.ltb_lt in Hsafe. rewrite tokenCount_safe by exact Hsafe.
  apply Z.even_spec in Heven. destruct Heven as [m Hm].
  rewrite Hm. rewrite Z.mul_comm, Z.div_mul by lia. lia.
Qed.

(** On buffers with two slots per token, [equals] is [true] exactly for
    identical texts, token counts and arrays. *)
Lemma equals_paired (a b : LineTokens) :
  paired a = true -> paired b = true ->
  (equals a (AsLineTokens b) = true <->
   _text a = _text b /\ getCount a = getCount b /\ _tokens a = _tokens b).
Proof.
  intros Ha Hb. rewrite equals_true. unfold getCount. split.
  - intros (Htext & Hcnt & Hall). repeat split; [done | done |].
    apply get_ext; [| exact Hall].
    rewrite (paired_length a Ha), (paired_length b Hb). lia.
  - intros (Htext & Hcnt & Htok). rewrite Htok. done.
Qed.

(** C3: on token buffers, whose arrays hold two slots per token, [equals]
    is [true] if and only if the two buffers have identical text, identical
    token count and identical packed arrays, element for element; it is
    reflexive and symmetric, and any difference in the text, in the token
    count or in an element of the arrays makes it [false]. *)
Theorem equals_iff_identical (a b : LineTokens) :
  paired a = true -> paired b = true ->
  (equals a (AsLineTokens b) = true <->
   _text a = _text b /\ getCount a = getCount b /\ _tokens a = _tokens b) /\
  equals a (AsLineTokens a) = true /\
  equals a (AsLineTokens b) = equals b (AsLineTokens a) /\
  (_text a <> _text b -> equals a (AsLineTokens b) = false) /\
  (getCount a <> getCount b -> equals a (AsLineTokens b) = false) /\
  (forall k, JS.get (_tokens a) k <> JS.get (_tokens b) k ->
             equals a (AsLineTokens b) = false).
Proof.
  intros Ha Hb.
  pose proof (equals_paired a b Ha Hb) as Hab.
  pose proof (equals_paired b a Hb Ha) as Hba.
  assert (Hdiff : ~ (_text a = _text b /\ getCount a = getCount b
                     /\ _tokens a = _tokens b) ->
                  equals a (AsLineTokens b) = false).
  { intros Hne. destruct (equals a (AsLineTokens b)); [| reflexivity].
    exfalso. apply Hne. by apply Hab. }
  split; [exact Hab |]. split; [by apply equals_true |].
  split; [| split; [| split]].
  - destruct (equals a (AsLineTokens b)) eqn:Eab,
             (equals b (AsLineTokens a)) eqn:Eba; try reflexivity.
    + destruct (proj1 Hab eq_refl) as (Ht & Hc & Hk).
      assert (false = true) by (by apply Hba). done.
    + destruct (proj1 Hba eq_refl) as (Ht & Hc & Hk).
      assert (false = true) by (by apply Hab). done.
  - intros Hne. apply Hdiff. intros (Ht & _ & _). done.
  - intros Hne. apply Hdiff. intros (_ & Hc & _). done.
  - intros k Hne. apply Hdiff. intros (_ & _ & Hk). apply Hne.
    by rewrite Hk.
Qed.

Lemma equals_iff_identical_witness :
  let a := sample_line in
  let b := {| _tokens := [3; 101; 7; 102; 9; 104]; _text := "let x = 1" |} in
  paired a = true /\ paired b = true /\
  equals a (AsLineTokens a) = true /\
  equals a (AsLineTokens b) = equals b (AsLineTokens a) /\
  equals a (AsLineTokens b) = false.
Proof.
  intros a b.
  assert (Ha : paired a = true) by (vm_compute; reflexivity).
  assert (Hb : paired b = true) by (vm_compute; reflexivity).
  split; [exact Ha |]. split; [exact Hb |].
  destruct (equals_iff_identical a b Ha Hb)
    as (_ & Hrefl & Hsym & _ & _ & Hdiff).
  split; [exact Hrefl |]. split; [exact Hsym |].
  apply (Hdiff 5). vm_compute. discriminate.
Defined.

(** Outside the data model, on an array with an odd number of slots, the
    last slot belongs to no token: a buffer over [1, 2] and a buffer over
    [1, 2, 3] with the same text count one token each, and the loop of
    [equals] runs over the array of the receiver only. *)
Lemma equals_odd_length :
  let a := {| _tokens := [1; 2]; _text := "x" |} in
  let b := {| _tokens := [1; 2; 3]; _text := "x" |} in
  paired b = false /\
  equals a (AsLineTokens b) = true /\
  equals b (AsLineTokens a) = false.
Proof. repeat split. Qed.

(** ** Cursors *)

Lemma alloc_fresh (it : LineTokensIterator) (h : heap) :
  exists l, alloc it h = Some (l, <[l := it]> h) /\ h !! l = None.
Proof.
  exists (fresh (dom h)). split; [reflexivity |].
  apply not_elem_of_dom. apply is_fresh.
Qed.

Lemma tokenAt_fresh (this : LineTokens) (tokenIndex : Z) (h : heap) :
  exists l,
    tokenAt this tokenIndex None h
    = Some (l, <[l := snapshot this (_tokensCount this) tokenIndex]> h)
    /\ h !! l = None.
Proof. unfold tokenAt, new_LineTokensIterator. apply alloc_fresh. Qed.

Lemma tokenAt_dest (this : LineTokens) (tokenIndex : Z) (dest : ref)
    (it : LineTokensIterator) (h : heap) :
  h !! dest = Some it ->
  tokenAt this tokenIndex (Some dest) h
  = Some (dest, <[dest := {| _source := _source it;
                             _tokenCount := _tokenCount it;
                             _tokenIndex := tokenIndex;
                             _metadata := getMetadata this tokenIndex;
                             _startOffset := getStartOffset this tokenIndex;
                             _endOffset := getEndOffset this tokenIndex |}]> h).
Proof.
  intros Hit. unfold tokenAt, M_bind, _set, M_ret. rewrite Hit. reflexivity.
Qed.

Lemma next_blocked (this : ref) (it : LineTokensIterator) (h : heap) :
  h !! this = Some it -> hasNext it = false -> next this h = Some (None, h).
Proof.
  intros Hit Hno. unfold next, M_bind, read. rewrite Hit, Hno. reflexivity.
Qed.

Lemma prev_blocked (this : ref) (it : LineTokensIterator) (h : heap) :
  h !! this = Some it -> hasPrev it = false -> prev this h = Some (None, h).
Proof.
  intros Hit Hno. unfold prev, M_bind, read. rewrite Hit, Hno. reflexivity.
Qed.

Lemma next_moves (this : ref) (it : LineTokensIterator) (h : heap) :
  h !! this = Some it -> hasNext it = true ->
  next this h
  = Some (Some this,
          <[this := snapshot (_source it) (_tokenCount it)
                             (_tokenIndex it + 1)]> h).
Proof.
  intros Hit Hyes. unfold next, M_bind at 1, read. rewrite Hit, Hyes.
  cbn [negb]. unfold M_bind. rewrite (tokenAt_dest _ _ _ _ _ Hit).
  reflexivity.
Qed.

Lemma prev_moves (this : ref) (it : LineTokensIterator) (h : heap) :
  h !! this = Some it -> hasPrev it = true ->
  prev this h
  = Some (Some this,
          <[this := snapshot (_source it) (_tokenCount it)
                             (_tokenIndex it - 1)]> h).
Proof.
  intros Hit Hyes. unfold prev, M_bind at 1, read. rewrite Hit, Hyes.
  cbn [negb]. unfold M_bind. rewrite (tokenAt_dest _ _ _ _ _ Hit).
  reflexivity.
Qed.



(** C6: a cursor without a next token answers [null] to [next] and keeps
    every field, and so does a cursor without a previous token for [prev];
    a cursor that can move moves by one token and caches that token's start
    offset, end offset and metadata word as its buffer has them. *)
Theorem next_prev_guarded (this : ref) (it : LineTokensIterator) (h : heap) :
  h !! this = Some it ->
  (hasNext it = false -> next this h = Some (None, h)) /\
  (hasPrev it = false -> prev this h = Some (None, h)) /\
  (hasNext it = true ->
   exists it',
     next this h = Some (Some this, <[this := it']> h) /\
     _source it' = _source it /\ _tokenCount it' = _tokenCount it /\
     _tokenIndex it' = _tokenIndex it + 1 /\
     _startOffset it' = getStartOffset (_source it) (_tokenIndex it + 1) /\
     _endOffset it' = getEndOffset (_source it) (_tokenIndex it + 1) /\
     _metadata it' = getMetadata (_source it) (_tokenIndex it + 1)) /\
  (hasPrev it = true ->
   exists it',
     prev this h = Some (Some this, <[this := it']> h) /\
     _source it' = _source it /\ _tokenCount it' = _tokenCount it /\
     _tokenIndex it' = _tokenIndex it - 1 /\
     _startOffset it' = getStartOffset (_source it) (_tokenIndex it - 1) /\
     _endOffset it' = getEndOffset (_source it) (_tokenIndex it - 1) /\
     _metadata it' = getMetadata (_source it) (_tokenIndex it - 1)).
Proof.
  intros Hit. split; [by apply next_blocked |].
  split; [by apply prev_blocked |]. split; intros Hyes.
  - eexists. split; [by apply next_moves |]. done.
  - eexists. split; [by apply prev_moves |]. done.
Qed.

Lemma next_prev_guarded_witness :
  let it := snapshot sample_line 3 2 in
  let h : heap := {[ 0%nat := it ]} in
  h !! 0%nat = Some it /\
  next 0%nat h = Some (None, h) /\
  exists it', prev 0%nat h = Some (Some 0%nat, <[0%nat := it']> h) /\
              _tokenIndex it' = 1 /\ _startOffset it' = Some 3.
Proof.
  intros it h.
  assert (Hit : h !! 0%nat = Some it) by (vm_compute; reflexivity).
  destruct (next_prev_guarded 0%nat it h Hit) as (Hnext & _ & _ & Hprev).
  split; [exact Hit |]. split; [apply Hnext; reflexivity |].
  destruct (Hprev eq_refl) as (it' & Hmove & _ & _ & Hidx & Hstart & _).
  exists it'. split; [exact Hmove |]. split; [exact Hidx |].
  rewrite Hstart. reflexivity.
Defined.

(** A move changes at most the cursor it is called on. *)
Lemma step_frame (this : ref) (m : move) (it : LineTokensIterator) (h : heap) :
  h !! this = Some it ->
  exists r it', step this m h = Some (r, <[this := it']> h).
Proof.
  intros Hit. destruct m; simpl.
  - destruct (hasPrev it) eqn:Hguard.
    + eexists _, _. exact (prev_moves this it h Hit Hguard).
    + exists None, it. rewrite insert_id by exact Hit.
      exact (prev_blocked this it h Hit Hguard).
  - destruct (hasNext it) eqn:Hguard.
    + eexists _, _. exact (next_moves this it h Hit Hguard).
    + exists None, it. rewrite insert_id by exact Hit.
      exact (next_blocked this it h Hit Hguard).
Qed.

(** A run of moves on a live cursor completes, and every other object of
    the store is as it was. *)
Lemma run_moves_frame (this : ref) (ms : list move) :
  forall h : heap,
    is_Some (h !! this) ->
    exists h', run_moves this ms h = Some (tt, h') /\
               is_Some (h' !! this) /\
               forall l, l <> this -> h' !! l = h !! l.
Proof.
  induction ms as [| m ms IH]; intros h [it Hit]; simpl.
  - exists h. by repeat split.
  - destruct (step_frame this m it h Hit) as (r & it' & Hstep).
    unfold M_bind. rewrite Hstep.
    destruct (IH (<[this := it']> h)) as (h' & Hrun & Hlive & Hframe).
    { rewrite lookup_insert_eq. by eexists. }
    exists h'. split; [exact Hrun |]. split; [exact Hlive |].
    intros l Hne. rewrite Hframe by exact Hne.
    by apply lookup_insert_ne.
Qed.

(** C7: [clone] creates a new cursor object that holds the fields of the
    original; any run of [next] and [prev] on the clone leaves the original
    with every field it had, and any run on the original leaves the clone
    as it was. *)
Theorem clone_independent (this : ref) (it : LineTokensIterator) (h : heap) :
  h !! this = Some it ->
  exists (c : ref) (h1 : heap),
    clone this h = Some (c, h1) /\
    c <> this /\ h !! c = None /\
    h1 !! c = Some it /\ h1 !! this = Some it /\
    (forall ms, exists h2, run_moves c ms h1 = Some (tt, h2) /\
                           h2 !! this = Some it) /\
    (forall ms, exists h2, run_moves this ms h1 = Some (tt, h2) /\
                           h2 !! c = Some it).
Proof.
  intros Hit.
  destruct (alloc_fresh it h) as (c & Halloc & Hfresh).
  assert (Hne : c <> this) by congruence.
  exists c, (<[c := it]> h).
  assert (Hc : <[c := it]> h !! c = Some it) by apply lookup_insert_eq.
  assert (Hthis : <[c := it]> h !! this = Some it)
    by (by rewrite lookup_insert_ne).
  split.
  { unfold clone, M_bind, read, new_LineTokensIterator. rewrite Hit.
    destruct it. exact Halloc. }
  repeat split; try done.
  - intros ms.
    destruct (run_moves_frame c ms (<[c := it]> h)) as (h2 & Hrun & _ & Hframe);
      [by eexists |].
    exists h2. split; [exact Hrun |]. rewrite Hframe by done. exact Hthis.
  - intros ms.
    destruct (run_moves_frame this ms (<[c := it]> h))
      as (h2 & Hrun & _ & Hframe); [by eexists |].
    exists h2. split; [exact Hrun |]. rewrite Hframe by done. exact Hc.
Qed.

Lemma clone_independent_witness :
  let it := snapshot sample_line 3 0 in
  let h : heap := {[ 0%nat := it ]} in
  h !! 0%nat = Some it /\
  exists (c : ref) (h1 h2 : heap),
    clone 0%nat h = Some (c, h1) /\
    run_moves c [MoveNext; MoveNext; MovePrev] h1 = Some (tt, h2) /\
    h2 !! 0%nat = Some it.
Proof.
  intros it h.
  assert (Hit : h !! 0%nat = Some it) by (vm_compute; reflexivity).
  split; [exact Hit |].
  destruct (clone_independent 0%nat it h Hit)
    as (c & h1 & Hclone & _ & _ & _ & _ & Hmoves & _).
  destruct (Hmoves [MoveNext; MoveNext; MovePrev]) as (h2 & Hrun & Hkept).
  exists c, h1, h2. repeat split; assumption.
Defined.

(** ** The metadata codec *)

Lemma testbit_above_width (v w n : Z) :
  0 <= v < 2 ^ w -> 0 <= w <= n -> Z.testbit v n = false.
Proof.
  intros Hv Hn. rewrite <- (Z.mod_small v (2 ^ w)) by exact Hv.
  apply Z.mod_pow2_bits_high. exact Hn.
Qed.

Section Codec.

Variable L : layout.
Hypothesis L_ok : layout_ok L = true.

Lemma field_listed (f : field) : In f fields.
Proof. destruct f; simpl; tauto. Qed.

Lemma layout_inside (f : field) :
  0 <= offset_of L f /\ 0 <= width_of L f /\ offset_of L f + width_of L f <= 32.
Proof.
  pose proof L_ok as Hok. unfold layout_ok in Hok.
  rewrite forallb_forall in Hok.
  specialize (Hok f (field_listed f)).
  apply andb_true_iff in Hok as [Hin _]. unfold field_inside in Hin.
  apply andb_true_iff in Hin as [Hin Hend].
  apply andb_true_iff in Hin as [Hoff Hwid].
  lia.
Qed.

Lemma layout_apart (f g : field) :
  field_eqb f g = false ->
  offset_of L f + width_of L f <= offset_of L g \/
  offset_of L g + width_of L g <= offset_of L f.
Proof.
  intros Hne. pose proof L_ok as Hok. unfold layout_ok in Hok.
  rewrite forallb_forall in Hok.
  specialize (Hok f (field_listed f)).
  apply andb_true_iff in Hok as [_ Hall].
  rewrite forallb_forall in Hall.
  specialize (Hall g (field_listed g)). unfold fields_apart in Hall.
  rewrite Hne in Hall. simpl in Hall.
  apply orb_true_iff in Hall as [H | H]; lia.
Qed.

(** Bit [n] of a decoded field is bit [n + offset] of the word, inside the
    width of the field. *)
Lemma decode_bit (f : field) (word n : Z) :
  0 <= n ->
  Z.testbit (decode L f word) n
  = (n <? width_of L f) && Z.testbit word (n + offset_of L f).
Proof.
  intros Hn. destruct (layout_inside f) as (Hoff & Hwid & _).
  unfold decode, mask.
  rewrite Z.shiftr_spec, Z.land_spec, Z.shiftl_spec by lia.
  rewrite Z.add_simpl_r, Z.testbit_ones_nonneg by lia.
  apply andb_comm.
Qed.

(** Inside the width of field [f], the value of field [g] shifted to its
    place shows its own bit if [g] is [f] and nothing otherwise. *)
Lemma shifted_field_bit (f g : field) (v n : Z) :
  fits L g v -> 0 <= n < width_of L f ->
  Z.testbit (Z.shiftl v (offset_of L g)) (n + offset_of L f)
  = field_eqb f g && Z.testbit v n.
Proof.
  intros Hfit Hn. destruct (layout_inside f) as (Hoff & _ & _).
  destruct (layout_inside g) as (Hoffg & Hwidg & _).
  rewrite Z.shiftl_spec by lia.
  destruct (field_eqb f g) eqn:Hfg; simpl.
  - assert (f = g) as -> by (destruct f, g; simpl in Hfg; congruence).
    f_equal. lia.
  - destruct (layout_apart f g Hfg) as [Hbelow | Habove].
    + apply Z.testbit_neg_r. lia.
    + apply (testbit_above_width v (width_of L g)); [exact Hfit | lia].
Qed.

(** Every decoder gives back its own field of an encoded word. *)
Lemma decode_encode (f : field) (vals : field -> Z) :
  (forall g, fits L g (vals g)) ->
  decode L f (encode L (vals LanguageId) (vals TokenType) (vals FontStyle)
                       (vals Foreground) (vals Background))
  = vals f.
Proof.
  intros Hfits. apply Z.bits_inj'. intros n Hn.
  destruct (layout_inside f) as (Hoff & Hwid & Hend).
  rewrite decode_bit by exact Hn.
  destruct (Z.ltb_spec n (width_of L f)) as [Hlow | Hhigh]; simpl.
  - unfold encode, JS.to_uint32.
    rewrite Z.mod_pow2_bits_low by lia.
    rewrite !Z.lor_spec.
    rewrite !shifted_field_bit by (auto; lia).
    destruct f; simpl; rewrite ?orb_false_r; reflexivity.
  - symmetry. apply (testbit_above_width _ (width_of L f)); [apply Hfits | lia].
Qed.

(** C8: in a layout whose fields lie apart inside the 32 bits of a word,
    and for field values that fit their widths, every decoder gives back its
    own field of the encoded word, whatever the four other fields hold. *)
Theorem decode_encode_roundtrip (lang type style fg bg : Z) :
  fits L LanguageId lang -> fits L TokenType type ->
  fits L FontStyle style -> fits L Foreground fg -> fits L Background bg ->
  decodeTokenType L (encode L lang type style fg bg) = type /\
  decodeLanguageId L (encode L lang type style fg bg) = lang /\
  decodeFontStyle L (encode L lang type style fg bg) = style /\
  decodeForeground L (encode L lang type style fg bg) = fg /\
  decodeBackground L (encode L lang type style fg bg) = bg.
Proof.
  intros Hlang Htype Hstyle Hfg Hbg.
  set (vals := fun g => match g with
                        | LanguageId => lang | TokenType => type
                        | FontStyle => style | Foreground => fg
                        | Background => bg
                        end).
  assert (Hfits : forall g, fits L g (vals g)) by (intros []; assumption).
  repeat split.
  - exact (decode_encode TokenType vals Hfits).
  - exact (decode_encode LanguageId vals Hfits).
  - exact (decode_encode FontStyle vals Hfits).
  - exact (decode_encode Foreground vals Hfits).
  - exact (decode_encode Background vals Hfits).
Qed.

End Codec.

Lemma decode_encode_roundtrip_witness :
  layout_ok sample_layout = true /\
  decodeTokenType sample_layout (encode sample_layout 255 2 5 300 511) = 2 /\
  decodeForeground sample_layout (encode sample_layout 255 2 5 300 511) = 300.
Proof.
  assert (Hok : layout_ok sample_layout = true) by (vm_compute; reflexivity).
  split; [exact Hok |].
  destruct (decode_encode_roundtrip sample_layout Hok 255 2 5 300 511)
    as (Htype & _ & _ & Hfg & _);
    [unfold fits; simpl; lia .. |].
  split; assumption.
Defined.

(** ** Token ranges of a well-formed buffer *)

Lemma ranges_from_lookup (i : nat) :
  forall (a : list Z) (s st e m : Z),
    ranges_from s a !! i = Some (st, e, m) <->
    a !! (2 * i)%nat = Some e /\ a !! (2 * i + 1)%nat = Some m /\
    match i with
    | O => st = s
    | S j => a !! (2 * j)%nat = Some st
    end.
Proof.
  induction i as [| i IH]; intros a s st e m.
  - destruct a as [| e0 [| m0 rest]]; simpl;
      [split; [done | intros [? _]; done]
      | split; [done | intros (_ & ? & _); done] |].
    split; [intros [= -> -> ->]; done | intros ([= ->] & [= ->] & ->); done].
  - destruct a as [| e0 [| m0 rest]]; simpl;
      [split; [done | intros [? _]; done]
      | split; [done | intros (_ & ? & _); done] |].
    rewrite IH.
    replace (i + S (i + 0))%nat with (S (2 * i)) by lia.
    replace (i + S (i + 0) + 1)%nat with (S (2 * i + 1)) by lia.
    simpl. destruct i as [| j]; simpl.
    + split; [intros (? & ? & ->); done | intros (? & ? & [= ->]); done].
    + replace (j + S (j + 0))%nat with (S (2 * j)) by lia.
      simpl. replace (j + (j + 0))%nat with (2 * j)%nat by lia.
      reflexivity.
Qed.

(** The triples of [ranges] are what the three accessors answer. *)
Lemma ranges_accessors (this : LineTokens) (i s e m : Z) :
  0 <= i < 2 ^ 30 ->
  (ranges this !! Z.to_nat i = Some (s, e, m) <->
   getStartOffset this i = Some s /\ getEndOffset this i = Some e /\
   getMetadata this i = Some m).
Proof.
  intros Hi. unfold ranges. rewrite ranges_from_lookup.
  unfold getStartOffset, getEndOffset, getMetadata.
  assert (Hread : forall k : nat,
            _tokens this !! k = JS.get (_tokens this) (Z.of_nat k)).
  { intros k. rewrite get_nonneg, Nat2Z.id by lia. reflexivity. }
  rewrite !Hread.
  replace (Z.of_nat (2 * Z.to_nat i)) with (2 * i) by lia.
  replace (Z.of_nat (2 * Z.to_nat i + 1)) with (2 * i + 1) by lia.
  rewrite (shl_1_small i) by lia.
  destruct (Z.ltb_spec 0 i) as [Hpos | Hzero].
  - rewrite (shl_1_small (i - 1)) by lia.
    destruct (Z.to_nat i) as [| j] eqn:Hj; [lia |].
    rewrite Hread. replace (Z.of_nat (2 * j)) with (2 * (i - 1)) by lia.
    tauto.
  - assert (i = 0) as -> by lia. simpl.
    split; [intros (? & ? & ->); done | intros ([= ->] & ? & ?); done].
Qed.

(** ** The binary search *)

(** Between [low] and [high], on a comparison that is monotone (a token
    that ends at or before the offset has only such tokens before it), the
    search returns the first index whose token does not end at or before
    the offset, or [high] when there is none below [high]. *)
Lemma search_spec (tokens : list Z) (offset low high : Z) :
  low <= high ->
  (forall i j, low <= i <= j -> j < high ->
               ends_at_or_before tokens j offset = true ->
               ends_at_or_before tokens i offset = true) ->
  low <= search tokens offset low high <= high /\
  (forall i, low <= i < search tokens offset low high ->
             ends_at_or_before tokens i offset = true) /\
  (search tokens offset low high < high ->
   ends_at_or_before tokens (search tokens offset low high) offset = false).
Proof.
  funelim (search tokens offset low high); intros Hle Hmono.
  - (* low = high: the loop is over *)
    repeat split; intros; lia.
  - (* the middle token ends at or before the offset: go right *)
    assert (Hmid : 0 <= (high - low) / 2 < high - low)
      by (split; [apply Z.div_pos | apply Z.div_lt_upper_bound]; lia).
    destruct H as (Hrange & Hbefore & Hat); [lia | |].
    { intros i j Hij Hj. apply Hmono; lia. }
    repeat split; try lia.
    + intros i Hi.
      destruct (Z.lt_ge_cases i (low + (high - low) / 2 + 1)) as [Hl | Hr].
      * apply (Hmono i (low + (high - low) / 2)); [lia | lia | exact Heq].
      * apply Hbefore. lia.
    + exact Hat.
  - (* the middle token ends after the offset: go left *)
    assert (Hmid : 0 <= (high - low) / 2 < high - low)
      by (split; [apply Z.div_pos | apply Z.div_lt_upper_bound]; lia).
    destruct H as (Hrange & Hbefore & Hat); [lia | |].
    { intros i j Hij Hj. apply Hmono; lia. }
    repeat split; try lia.
    + exact Hbefore.
    + intros Hlt.
      destruct (Z.lt_ge_cases
                  (search tokens offset low (low + (high - low) / 2))
                  (low + (high - low) / 2)) as [Hl | Hr].
      * apply Hat. exact Hl.
      * replace (search tokens offset low (low + (high - low) / 2))
          with (low + (high - low) / 2) by lia.
        exact Heq.
Qed.

(** ** Well-formed buffers *)

Lemma getStartOffset_pos (this : LineTokens) (i : Z) :
  0 < i -> getStartOffset this i = getEndOffset this (i - 1).
Proof.
  intros Hi. unfold getStartOffset, getEndOffset.
  destruct (Z.ltb_spec 0 i); [reflexivity | lia].
Qed.

Lemma well_formed_shape (this : LineTokens) :
  well_formed this = true ->
  JS.length (_tokens this) = 2 * _tokensCount this /\
  1 <= _tokensCount this < 2 ^ 30 /\
  (forallb nonempty_range (ranges this) = true
   \/ _tokensCount this = 1 /\ _textLength this = 0) /\
  getEndOffset this (_tokensCount this - 1) = Some (_textLength this).
Proof.
  unfold well_formed. rewrite !andb_true_iff.
  intros (((Hpaired & Hone) & Hranges) & Hlast).
  assert (Hlen : JS.length (_tokens this) = 2 * _tokensCount this)
    by (by apply paired_length).
  unfold paired in Hpaired. apply andb_true_iff in Hpaired as [Hsafe _].
  apply Z.ltb_lt in Hsafe. apply Z.leb_le in Hone.
  apply bool_decide_eq_true in Hlast.
  split; [exact Hlen |]. split; [lia |]. split; [| exact Hlast].
  apply orb_true_iff in Hranges as [Hall | Hdeg]; [by left | right].
  apply andb_true_iff in Hdeg as [H1 H0]. lia.
Qed.

(** Every token of a well-formed buffer has a start offset, an end offset
    and a metadata word, and it holds at least one character unless it is
    the one token of an empty line. *)
Lemma well_formed_token (this : LineTokens) (i : Z) :
  well_formed this = true -> 0 <= i < _tokensCount this ->
  exists s e m,
    ranges this !! Z.to_nat i = Some (s, e, m) /\
    getStartOffset this i = Some s /\ getEndOffset this i = Some e /\
    getMetadata this i = Some m /\
    (s < e \/ _tokensCount this = 1 /\ _textLength this = 0 /\ s = 0 /\ e = 0).
Proof.
  intros Hwf Hi.
  destruct (well_formed_shape this Hwf) as (Hlen & HN & Hranges & Hlast).
  unfold JS.length in Hlen.
  destruct (lookup_lt_is_Some_2 (_tokens this) (2 * Z.to_nat i)) as [e He];
    [lia |].
  destruct (lookup_lt_is_Some_2 (_tokens this) (2 * Z.to_nat i + 1))
    as [m Hm]; [lia |].
  assert (Hs : exists s, match Z.to_nat i with
                         | O => s = 0
                         | S j => _tokens this !! (2 * j)%nat = Some s
                         end).
  { destruct (Z.to_nat i) as [| j] eqn:Hj; [by exists 0 |].
    apply (lookup_lt_is_Some_2 (_tokens this)). lia. }
  destruct Hs as [s Hs].
  assert (Hr : ranges this !! Z.to_nat i = Some (s, e, m))
    by (unfold ranges; by apply ranges_from_lookup).
  pose proof Hr as Hacc.
  apply ranges_accessors in Hacc as (Hstart & Hend & Hmeta); [| lia].
  exists s, e, m. repeat split; try assumption.
  destruct Hranges as [Hall | [H1 H0]].
  - left. rewrite forallb_forall in Hall.
    apply Z.ltb_lt. apply (Hall (s, e, m)). apply list_elem_of_In.
    by apply (list_elem_of_lookup_2 _ (Z.to_nat i)).
  - right. assert (i = 0) as -> by lia.
    rewrite H1 in Hlast. change (1 - 1) with 0 in Hlast.
    unfold getStartOffset in Hstart. simpl in Hstart.
    repeat split; [exact H1 | exact H0 | congruence | congruence].
Qed.

(** End offsets increase strictly along a well-formed buffer. *)
Lemma well_formed_increasing (this : LineTokens) (d : nat) :
  well_formed this = true ->
  forall i ei ej,
    0 <= i -> i + 1 + Z.of_nat d < _tokensCount this ->
    getEndOffset this i = Some ei ->
    getEndOffset this (i + 1 + Z.of_nat d) = Some ej ->
    ei < ej.
Proof.
  intros Hwf. induction d as [| d IH]; intros i ei ej Hi Hj Hei Hej.
  - destruct (well_formed_token this (i + 1) Hwf) as
      (s & e & _ & _ & Hs & He & _ & Hne); [lia |].
    rewrite getStartOffset_pos in Hs by lia.
    replace (i + 1 - 1) with i in Hs by lia.
    replace (i + 1 + Z.of_nat 0) with (i + 1) in Hej by lia.
    destruct Hne as [Hlt | (H1 & _)]; [congruence | lia].
  - destruct (well_formed_token this (i + 1 + Z.of_nat d) Hwf) as
      (_ & ek & _ & _ & _ & Hek & _); [lia |].
    assert (ei < ek) by (apply (IH i); [lia | lia | exact Hei | exact Hek]).
    destruct (well_formed_token this (i + 1 + Z.of_nat (S d)) Hwf) as
      (s & e & _ & _ & Hs & He & _ & Hne); [lia |].
    rewrite getStartOffset_pos in Hs by lia.
    replace (i + 1 + Z.of_nat (S d) - 1) with (i + 1 + Z.of_nat d) in Hs
      by lia.
    destruct Hne as [Hlt | (H1 & _)]; [| lia].
    assert (s = ek) by congruence. assert (e = ej) by congruence. lia.
Qed.

Lemma well_formed_ends_lt (this : LineTokens) (i j ei ej : Z) :
  well_formed this = true ->
  0 <= i < j -> j < _tokensCount this ->
  getEndOffset this i = Some ei -> getEndOffset this j = Some ej ->
  ei < ej.
Proof.
  intros Hwf Hij Hj Hei Hej.
  apply (well_formed_increasing this (Z.to_nat (j - i - 1)) Hwf i ei ej);
    [lia | lia | exact Hei |].
  replace (i + 1 + Z.of_nat (Z.to_nat (j - i - 1))) with j by lia.
  exact Hej.
Qed.

Lemma well_formed_ends_positive (this : LineTokens) (i e : Z) :
  well_formed this = true ->
  2 <= _tokensCount this -> 0 <= i < _tokensCount this ->
  getEndOffset this i = Some e -> 0 < e.
Proof.
  intros Hwf HN Hi He.
  destruct (well_formed_token this 0 Hwf) as
    (s0 & e0 & _ & _ & Hs0 & He0 & _ & Hne0); [lia |].
  unfold getStartOffset in Hs0. simpl in Hs0.
  assert (0 < e0) by (destruct Hne0 as [? | (? & _)]; [congruence | lia]).
  destruct (decide (i = 0)) as [-> | Hpos]; [congruence |].
  assert (e0 < e); [| lia].
  apply (well_formed_ends_lt this 0 i); try assumption; lia.
Qed.

(** The comparison of the search, on a token of a well-formed buffer. *)
Lemma ends_at_or_before_end (this : LineTokens) (i e o : Z) :
  0 <= i < 2 ^ 30 -> getEndOffset this i = Some e ->
  ends_at_or_before (_tokens this) i o = (e <=? o).
Proof.
  intros Hi He. unfold ends_at_or_before, getEndOffset in *.
  rewrite shl_1_small in He by lia. by rewrite He.
Qed.

(** The search over a well-formed buffer stops at the first token that ends
    after the offset, or at the last token. *)
Lemma search_well_formed (this : LineTokens) (o : Z) :
  well_formed this = true ->
  let r := search (_tokens this) o 0 (_tokensCount this - 1) in
  0 <= r <= _tokensCount this - 1 /\
  (forall i e, 0 <= i < r -> getEndOffset this i = Some e -> e <= o) /\
  (r < _tokensCount this - 1 ->
   forall e, getEndOffset this r = Some e -> o < e).
Proof.
  intros Hwf r.
  destruct (well_formed_shape this Hwf) as (_ & HN & _ & _).
  destruct (search_spec (_tokens this) o 0 (_tokensCount this - 1))
    as (Hrange & Hbefore & Hat); [lia | |].
  - intros i j Hij Hj Hjb.
    destruct (well_formed_token this i Hwf) as
      (_ & ei & _ & _ & _ & Hei & _); [lia |].
    destruct (well_formed_token this j Hwf) as
      (_ & ej & _ & _ & _ & Hej & _); [lia |].
    rewrite (ends_at_or_before_end this j ej) in Hjb by (done || lia).
    rewrite (ends_at_or_before_end this i ei) by (done || lia).
    apply Z.leb_le in Hjb. apply Z.leb_le.
    destruct (decide (i = j)) as [-> | Hne]; [congruence |].
    assert (ei < ej)
      by (apply (well_formed_ends_lt this i j); try assumption; lia).
    lia.
  - fold r in Hrange, Hbefore, Hat. split; [exact Hrange |]. split.
    + intros i e Hi He. specialize (Hbefore i Hi).
      rewrite (ends_at_or_before_end this i e) in Hbefore by (done || lia).
      by apply Z.leb_le.
    + intros Hr e He. specialize (Hat Hr).
      rewrite (ends_at_or_before_end this r e) in Hat by (done || lia).
      by apply Z.leb_gt.
Qed.

(** C2: on a well-formed buffer and for an offset inside the text,
    [findTokenIndexAtOffset] returns a token that starts at or before the
    offset and either ends after it or is the last one; an offset that is
    the end of a token before the last one is found in the token after it;
    an offset at or beyond the length of the text is found in the last
    token; an offset at or below [0] is found in token [0]. *)
Theorem findTokenIndexAtOffset_spec (this : LineTokens) :
  well_formed this = true ->
  (forall o, 0 <= o <= _textLength this ->
     0 <= findTokenIndexAtOffset this o < getCount this /\
     exists s e,
       getStartOffset this (findTokenIndexAtOffset this o) = Some s /\
       getEndOffset this (findTokenIndexAtOffset this o) = Some e /\
       s <= o /\
       (o < e \/ findTokenIndexAtOffset this o = getCount this - 1)) /\
  (forall o j, 0 <= j < getCount this - 1 ->
               getEndOffset this j = Some o ->
               findTokenIndexAtOffset this o = j + 1) /\
  (forall o, _textLength this <= o ->
             findTokenIndexAtOffset this o = getCount this - 1) /\
  (forall o, o <= 0 -> findTokenIndexAtOffset this o = 0).
Proof.
  intros Hwf. unfold getCount.
  destruct (well_formed_shape this Hwf) as (Hlen & HN & _ & Hlast).
  assert (Hfind : forall o,
            findTokenIndexAtOffset this o
            = if o <=? 0 then 0
              else search (_tokens this) o 0 (_tokensCount this - 1))
    by reflexivity.
  split; [| split; [| split]].
  - intros o Ho. rewrite Hfind.
    destruct (Z.leb_spec o 0) as [Hzero | Hpos].
    + (* offset 0 *)
      destruct (well_formed_token this 0 Hwf) as
        (s & e & _ & _ & Hs & He & _ & Hne); [lia |].
      split; [lia |]. exists s, e. split; [exact Hs |]. split; [exact He |].
      unfold getStartOffset in Hs. simpl in Hs.
      assert (s = 0) by congruence. split; [lia |].
      destruct Hne as [Hlt | (H1 & _)]; [left; lia | right; lia].
    + destruct (search_well_formed this o Hwf) as (Hrange & Hbefore & Hat).
      set (r := search (_tokens this) o 0 (_tokensCount this - 1)) in *.
      destruct (well_formed_token this r Hwf) as
        (s & e & _ & _ & Hs & He & _ & _); [lia |].
      split; [lia |]. exists s, e. split; [exact Hs |]. split; [exact He |].
      split.
      * destruct (decide (r = 0)) as [Hr0 | Hrpos].
        -- rewrite Hr0 in Hs. unfold getStartOffset in Hs. simpl in Hs.
           assert (s = 0) by congruence. lia.
        -- rewrite getStartOffset_pos in Hs by lia.
           apply (Hbefore (r - 1)); [lia | exact Hs].
      * destruct (decide (r = _tokensCount this - 1)) as [Hr | Hr];
          [by right | left].
        apply Hat; [lia | exact He].
  - intros o j Hj Hej. rewrite Hfind.
    assert (0 < o)
      by (apply (well_formed_ends_positive this j); try assumption; lia).
    destruct (Z.leb_spec o 0) as [Hzero | _]; [lia |].
    destruct (search_well_formed this o Hwf) as (Hrange & Hbefore & Hat).
    set (r := search (_tokens this) o 0 (_tokensCount this - 1)) in *.
    destruct (well_formed_token this r Hwf) as
      (_ & er & _ & _ & _ & Her & _); [lia |].
    destruct (well_formed_token this (j + 1) Hwf) as
      (_ & e1 & _ & _ & _ & He1 & _); [lia |].
    assert (o < e1)
      by (apply (well_formed_ends_lt this j (j + 1)); try assumption; lia).
    destruct (Z.lt_trichotomy r (j + 1)) as [Hless | [Heq | Hmore]];
      [| exact Heq |].
    + (* the search cannot stop at or before token [j] *)
      assert (o < er) by (apply Hat; [lia | exact Her]).
      destruct (decide (r = j)) as [Hrj | Hne].
      { rewrite Hrj in Her. assert (er = o) by congruence. lia. }
      assert (er < o)
        by (apply (well_formed_ends_lt this r j); try assumption; lia).
      lia.
    + (* nor pass token [j + 1] *)
      assert (e1 <= o) by (apply (Hbefore (j + 1)); [lia | exact He1]).
      lia.
  - intros o Ho. rewrite Hfind.
    destruct (Z.leb_spec o 0) as [Hzero | Hpos].
    + (* an empty line: its one token is the last *)
      destruct (decide (_tokensCount this = 1)) as [-> | Hmany];
        [reflexivity |].
      assert (0 < _textLength this); [| lia].
      apply (well_formed_ends_positive this (_tokensCount this - 1));
        try assumption; lia.
    + destruct (search_well_formed this o Hwf) as (Hrange & Hbefore & Hat).
      set (r := search (_tokens this) o 0 (_tokensCount this - 1)) in *.
      destruct (decide (r = _tokensCount this - 1)) as [Hr | Hr];
        [exact Hr |].
      destruct (well_formed_token this r Hwf) as
        (_ & er & _ & _ & _ & Her & _); [lia |].
      assert (o < er) by (apply Hat; [lia | exact Her]).
      assert (er < _textLength this); [| lia].
      apply (well_formed_ends_lt this r (_tokensCount this - 1));
        try assumption; lia.
  - intros o Ho. rewrite Hfind.
    destruct (Z.leb_spec o 0); [reflexivity | lia].
Qed.

Lemma findTokenIndexAtOffset_spec_witness :
  well_formed sample_line = true /\
  findTokenIndexAtOffset sample_line 3 = 0 + 1 /\
  findTokenIndexAtOffset sample_line 9 = getCount sample_line - 1.
Proof.
  assert (Hwf : well_formed sample_line = true) by (vm_compute; reflexivity).
  split; [exact Hwf |].
  destruct (findTokenIndexAtOffset_spec sample_line Hwf)
    as (_ & Hboundary & Hlast & _).
  split.
  - apply Hboundary; [vm_compute; split; [discriminate | reflexivity] |].
    reflexivity.
  - apply Hlast. vm_compute. discriminate.
Defined.

(** ** sliceAndInflate *)

Lemma omap_agree {A B : Type} (f g : A -> option B) (l : list A) :
  (forall x, x ∈ l -> f x = g x) -> omap f l = omap g l.
Proof.
  intros Hfg. apply list_omap_ext, Forall_Forall2_diag.
  apply Forall_forall. exact Hfg.
Qed.

(** The triples of a well-formed buffer are its tokens, and they lie inside
    the text. *)
Lemma well_formed_ranges (this : LineTokens) (s e m : Z) :
  well_formed this = true ->
  ((s, e, m) ∈ ranges this <->
   exists i, 0 <= i < _tokensCount this /\
             getStartOffset this i = Some s /\ getEndOffset this i = Some e /\
             getMetadata this i = Some m) /\
  ((s, e, m) ∈ ranges this -> 0 <= s /\ e <= _textLength this).
Proof.
  intros Hwf.
  destruct (well_formed_shape this Hwf) as (Hlen & HN & _ & Hlast).
  assert (Hiff : (s, e, m) ∈ ranges this <->
            exists i, 0 <= i < _tokensCount this /\
              getStartOffset this i = Some s /\
              getEndOffset this i = Some e /\ getMetadata this i = Some m).
  { rewrite list_elem_of_lookup. split.
    - intros [k Hk]. exists (Z.of_nat k).
      assert (Hin : 0 <= Z.of_nat k < _tokensCount this).
      { pose proof Hk as Hk'. unfold ranges in Hk'.
        apply ranges_from_lookup in Hk' as (He & _).
        apply lookup_lt_Some in He. unfold JS.length in Hlen. lia. }
      split; [exact Hin |].
      apply ranges_accessors; [lia |]. by rewrite Nat2Z.id.
    - intros (i & Hi & Hacc). exists (Z.to_nat i).
      apply ranges_accessors; [lia | exact Hacc]. }
  split; [exact Hiff |].
  intros Hin. apply Hiff in Hin as (i & Hi & Hs & He & _).
  split.
  - destruct (decide (i = 0)) as [-> | Hpos].
    + unfold getStartOffset in Hs. simpl in Hs.
      assert (s = 0) by congruence. lia.
    + rewrite getStartOffset_pos in Hs by lia.
      assert (0 < s); [| lia].
      apply (well_formed_ends_positive this (i - 1)); try assumption; lia.
  - destruct (decide (i = _tokensCount this - 1)) as [-> | Hne].
    + assert (e = _textLength this) by congruence. lia.
    + assert (e < _textLength this); [| lia].
      apply (well_formed_ends_lt this i (_tokensCount this - 1));
        try assumption; lia.
Qed.

(** C9: on a well-formed buffer, [sliceAndInflate] returns, in the order of
    the tokens, every token that shares a character with the slice, clipped
    to the edges of the slice and shifted by [deltaOffset], and nothing
    else: a token outside the slice, or left with no character, yields no
    descriptor.  Over the ranges [0,3), [3,7), [7,9) the slice [2,5) yields
    the two descriptors [2,3) and [3,5). *)
Theorem sliceAndInflate_spec (this : LineTokens)
    (startOffset endOffset deltaOffset : Z) :
  well_formed this = true ->
  sliceAndInflate this startOffset endOffset deltaOffset
  = AsViewLineTokens
      (omap (clip startOffset endOffset deltaOffset) (ranges this)) /\
  (forall v,
     v ∈ _sliceAndInflate this startOffset endOffset deltaOffset <->
     exists i s e m,
       0 <= i < getCount this /\
       getStartOffset this i = Some s /\ getEndOffset this i = Some e /\
       getMetadata this i = Some m /\
       Z.max s startOffset < Z.min e endOffset /\
       v = {| vStartOffset := Z.max s startOffset + deltaOffset;
              vEndOffset := Z.min e endOffset + deltaOffset;
              vMetadata := m |}) /\
  (forall v,
     v ∈ _sliceAndInflate this startOffset endOffset deltaOffset ->
     startOffset + deltaOffset <= vStartOffset v /\
     vStartOffset v < vEndOffset v /\
     vEndOffset v <= endOffset + deltaOffset) /\
  sliceAndInflate sample_line 2 5 0
  = AsViewLineTokens
      [ {| vStartOffset := 2; vEndOffset := 3; vMetadata := 101 |};
        {| vStartOffset := 3; vEndOffset := 5; vMetadata := 102 |} ].
Proof.
  intros Hwf.
  assert (Hslice : _sliceAndInflate this startOffset endOffset deltaOffset
                   = omap (clip startOffset endOffset deltaOffset)
                          (ranges this)).
  { unfold _sliceAndInflate, ViewLineTokenFactory_sliceAndInflate.
    apply omap_agree. intros [[s e] m] Hin.
    apply (well_formed_ranges this s e m Hwf) in Hin as [Hs He].
    unfold clip.
    replace (Z.max s (Z.max startOffset 0)) with (Z.max s startOffset)
      by lia.
    replace (Z.min e (Z.min endOffset (_textLength this)))
      with (Z.min e endOffset) by lia.
    reflexivity. }
  assert (Hmem : forall v,
            v ∈ _sliceAndInflate this startOffset endOffset deltaOffset <->
            exists i s e m,
              0 <= i < getCount this /\
              getStartOffset this i = Some s /\
              getEndOffset this i = Some e /\
              getMetadata this i = Some m /\
              Z.max s startOffset < Z.min e endOffset /\
              v = {| vStartOffset := Z.max s startOffset + deltaOffset;
                     vEndOffset := Z.min e endOffset + deltaOffset;
                     vMetadata := m |}).
  { intros v. rewrite Hslice, list_elem_of_omap. unfold getCount. split.
    - intros ([[s e] m] & Hin & Hclip).
      apply (well_formed_ranges this s e m Hwf) in Hin
        as (i & Hi & Hs & He & Hm).
      exists i, s, e, m. unfold clip in Hclip.
      destruct (Z.ltb_spec (Z.max s startOffset) (Z.min e endOffset));
        [| discriminate].
      injection Hclip as <-. done.
    - intros (i & s & e & m & Hi & Hs & He & Hm & Hlt & ->).
      exists (s, e, m). split.
      + apply (well_formed_ranges this s e m Hwf). by exists i.
      + unfold clip.
        destruct (Z.ltb_spec (Z.max s startOffset) (Z.min e endOffset));
          [reflexivity | lia]. }
  split; [unfold sliceAndInflate; by rewrite Hslice |].
  split; [exact Hmem |]. split; [| reflexivity].
  intros v Hv. apply Hmem in Hv as (i & s & e & m & _ & _ & _ & _ & Hlt & ->).
  simpl. lia.
Qed.

Lemma sliceAndInflate_spec_witness :
  well_formed sample_line = true /\
  sliceAndInflate sample_line 7 20 100
  = AsViewLineTokens
      (omap (clip 7 20 100) (ranges sample_line)).
Proof.
  assert (Hwf : well_formed sample_line = true) by (vm_compute; reflexivity).
  split; [exact Hwf |].
  apply (sliceAndInflate_spec sample_line 7 20 100 Hwf).
Defined.

(** * Further properties of the code *)

(** ** equals, continued *)

(** X1: [equals] is transitive on all buffers, whatever the lengths of
    their arrays. *)
Theorem equals_transitive (a b c : LineTokens) :
  equals a (AsLineTokens b) = true ->
  equals b (AsLineTokens c) = true ->
  equals a (AsLineTokens c) = true.
Proof.
  rewrite !equals_true.
  intros (Htab & Hcab & Hab) (Htbc & Hcbc & Hbc).
  split; [congruence |]. split; [congruence |].
  intros k Hk. rewrite (Hab k Hk).
  destruct (get_in_range (_tokens a) k Hk) as [x Hx].
  apply Hbc. apply (get_Some_range _ _ x). rewrite <- Hab by exact Hk.
  exact Hx.
Qed.

Lemma equals_transitive_witness :
  let a := {| _tokens := [1; 2]; _text := "x" |} in
  let b := {| _tokens := [1; 2; 3]; _text := "x" |} in
  let c := {| _tokens := [1; 2; 3]; _text := "x" |} in
  equals a (AsLineTokens b) = true /\
  equals b (AsLineTokens c) = true /\
  equals a (AsLineTokens c) = true.
Proof.
  intros a b c.
  assert (Hab : equals a (AsLineTokens b) = true) by reflexivity.
  assert (Hbc : equals b (AsLineTokens c) = true) by reflexivity.
  split; [exact Hab |]. split; [exact Hbc |].
  exact (equals_transitive a b c Hab Hbc).
Defined.

(** X2: two buffers that [equals] accepts give the same token count and,
    at every token of the first, the same start offset, end offset and
    metadata word. *)
Theorem equals_same_tokens (a b : LineTokens) :
  JS.index_safe (_tokens a) ->
  equals a (AsLineTokens b) = true ->
  getCount a = getCount b /\
  forall i, 0 <= i < getCount a ->
            getStartOffset a i = getStartOffset b i /\
            getEndOffset a i = getEndOffset b i /\
            getMetadata a i = getMetadata b i.
Proof.
  intros Hsafe Heq. apply equals_true in Heq as (_ & Hcnt & Hall).
  split; [exact Hcnt |]. unfold getCount, _tokensCount.
  rewrite (tokenCount_safe _ Hsafe).
  pose proof (length_nonneg (_tokens a)) as Hlen0.
  unfold JS.index_safe in Hsafe.
  intros i Hi.
  assert (Hbound : 2 * i + 1 < JS.length (_tokens a) /\ i < 2 ^ 30).
  { assert (2 * (JS.length (_tokens a) / 2) <= JS.length (_tokens a))
      by (apply Z.mul_div_le; lia).
    assert (JS.length (_tokens a) / 2 < 2 ^ 30)
      by (apply Z.div_lt_upper_bound; lia).
    lia. }
  unfold getStartOffset, getEndOffset, getMetadata.
  rewrite (shl_1_small i) by lia.
  split; [| split; apply Hall; lia].
  destruct (Z.ltb_spec 0 i); [| reflexivity].
  rewrite (shl_1_small (i - 1)) by lia. apply Hall. lia.
Qed.

Lemma equals_same_tokens_witness :
  let a := {| _tokens := [1; 2]; _text := "x" |} in
  let b := {| _tokens := [1; 2; 3]; _text := "x" |} in
  JS.index_safe (_tokens a) /\
  equals a (AsLineTokens b) = true /\
  getEndOffset a 0 = getEndOffset b 0.
Proof.
  intros a b.
  assert (Hsafe : JS.index_safe (_tokens a)) by (vm_compute; reflexivity).
  assert (Hab : equals a (AsLineTokens b) = true) by reflexivity.
  split; [exact Hsafe |]. split; [exact Hab |].
  destruct (equals_same_tokens a b Hsafe Hab) as [_ Hsame].
  apply (Hsame 0). vm_compute. split; [discriminate | reflexivity].
Defined.

(** ** Accessors outside the tokens *)

(** X3: on a buffer with two slots per token, and for an index the 32-bit
    shift does not wrap, the end offset and the metadata word are defined
    exactly at the tokens [0 .. N-1], and the start offset exactly up to
    index [N]; elsewhere the accessors answer [undefined]. *)
Theorem accessors_defined (this : LineTokens) (i : Z) :
  paired this = true -> - 2 ^ 30 <= i < 2 ^ 30 ->
  (is_Some (getEndOffset this i) <-> 0 <= i < getCount this) /\
  (is_Some (getMetadata this i) <-> 0 <= i < getCount this) /\
  (is_Some (getStartOffset this i) <-> i <= getCount this).
Proof.
  intros Hp Hi. pose proof (paired_length this Hp) as Hlen.
  pose proof (length_nonneg (_tokens this)) as Hlen0.
  unfold getCount, getEndOffset, getMetadata, getStartOffset.
  rewrite (shl_1_small i) by lia.
  assert (Hget : forall k, is_Some (JS.get (_tokens this) k)
                           <-> 0 <= k < JS.length (_tokens this)).
  { intros k. split.
    - intros [x Hx]. by apply (get_Some_range _ _ x).
    - intros Hk. destruct (get_in_range _ k Hk) as [x Hx].
      rewrite Hx. by eexists. }
  rewrite !Hget. split; [lia |]. split; [lia |].
  destruct (Z.ltb_spec 0 i) as [Hpos | Hle].
  - rewrite (shl_1_small (i - 1)) by lia. rewrite Hget. lia.
  - split; [lia | by eexists].
Qed.

Lemma accessors_defined_witness :
  paired sample_line = true /\ - 2 ^ 30 <= 3 < 2 ^ 30 /\
  ~ is_Some (getEndOffset sample_line 3) /\
  is_Some (getStartOffset sample_line 3).
Proof.
  assert (Hp : paired sample_line = true) by (vm_compute; reflexivity).
  assert (Hi : - 2 ^ 30 <= 3 < 2 ^ 30) by lia.
  split; [exact Hp |]. split; [exact Hi |].
  destruct (accessors_defined sample_line 3 Hp Hi) as (Hend & _ & Hstart).
  split.
  - intros Hsome. apply Hend in Hsome. vm_compute in Hsome.
    destruct Hsome as [_ Hlt]. discriminate.
  - apply Hstart. vm_compute. discriminate.
Defined.

Lemma shl_1_wraps (i : Z) : JS.shl (i + 2 ^ 31) 1 = JS.shl i 1.
Proof.
  unfold JS.shl, JS.to_int32. rewrite !Z.shiftl_mul_pow2 by lia.
  change (2 ^ 1) with 2. change (2 ^ 31) with 2147483648.
  change (2 ^ 32) with 4294967296.
  f_equal. Z.div_mod_to_equations. lia.
Qed.

(** X4: the index of a token is taken modulo [2^31]: an index [2^31]
    above another reads the end offset and the metadata word of that other
    token, not [undefined]. *)
Theorem accessors_wrap (this : LineTokens) (i : Z) :
  getEndOffset this (i + 2 ^ 31) = getEndOffset this i /\
  getMetadata this (i + 2 ^ 31) = getMetadata this i.
Proof.
  unfold getEndOffset, getMetadata. by rewrite shl_1_wraps.
Qed.

(** ** Cursors, continued *)

Lemma snapshot_consistent (source : LineTokens) (tokenCount tokenIndex : Z) :
  consistent (snapshot source tokenCount tokenIndex).
Proof. reflexivity. Qed.

(** A property of cursors that every successful move keeps is kept by every
    run of moves, and no run adds or removes an object of the store. *)
Lemma run_moves_preserves (P : LineTokensIterator -> Prop) (this : ref)
    (ms : list move) :
  (forall it, P it -> hasNext it = true ->
     P (snapshot (_source it) (_tokenCount it) (_tokenIndex it + 1))) ->
  (forall it, P it -> hasPrev it = true ->
     P (snapshot (_source it) (_tokenCount it) (_tokenIndex it - 1))) ->
  forall (h : heap) (it : LineTokensIterator),
    h !! this = Some it -> P it ->
    exists h' it', run_moves this ms h = Some (tt, h') /\
                   h' !! this = Some it' /\ P it' /\ dom h' = dom h.
Proof.
  intros Hnext Hprev.
  induction ms as [| m ms IH]; intros h it Hit HP; simpl.
  - by exists h, it.
  - assert (Hstep : exists r it1, step this m h = Some (r, <[this := it1]> h)
                                  /\ P it1).
    { destruct m; simpl.
      - destruct (hasPrev it) eqn:Hguard.
        + eexists _, _. split; [exact (prev_moves this it h Hit Hguard) |].
          by apply Hprev.
        + exists None, it. rewrite insert_id by exact Hit.
          split; [exact (prev_blocked this it h Hit Hguard) | exact HP].
      - destruct (hasNext it) eqn:Hguard.
        + eexists _, _. split; [exact (next_moves this it h Hit Hguard) |].
          by apply Hnext.
        + exists None, it. rewrite insert_id by exact Hit.
          split; [exact (next_blocked this it h Hit Hguard) | exact HP]. }
    destruct Hstep as (r & it1 & Hstep & HP1).
    unfold M_bind. rewrite Hstep.
    destruct (IH (<[this := it1]> h) it1)
      as (h' & it' & Hrun & Hit' & HP' & Hdom);
      [apply lookup_insert_eq | exact HP1 |].
    exists h', it'. split; [exact Hrun |]. split; [exact Hit' |].
    split; [exact HP' |]. rewrite Hdom.
    apply dom_insert_lookup_L. by eexists.
Qed.

(** X5: a cursor that is on one of its tokens and caches what its buffer
    holds there stays so under every run of [next] and [prev]: it never
    leaves the tokens [0 .. N-1], its cached fields never go stale, its
    buffer and token count never change, and no cursor object is created or
    lost. *)
Theorem moves_keep_cursor (this : ref) (it : LineTokensIterator) (h : heap)
    (ms : list move) :
  h !! this = Some it -> consistent it -> in_range it ->
  exists h' it',
    run_moves this ms h = Some (tt, h') /\ h' !! this = Some it' /\
    consistent it' /\ in_range it' /\
    _source it' = _source it /\ _tokenCount it' = _tokenCount it /\
    dom h' = dom h.
Proof.
  intros Hit Hcons Hrange.
  destruct (run_moves_preserves
              (fun x => consistent x /\ in_range x /\
                        _source x = _source it /\
                        _tokenCount x = _tokenCount it) this ms)
    with (h := h) (it := it) as (h' & it' & Hrun & Hit' & HP & Hdom).
  - intros x (_ & Hx & Hsrc & Hcnt) Hguard.
    unfold hasNext in Hguard. apply Z.ltb_lt in Hguard.
    unfold in_range in *. simpl. repeat split; try done; lia.
  - intros x (_ & Hx & Hsrc & Hcnt) Hguard.
    unfold hasPrev in Hguard. apply Z.ltb_lt in Hguard.
    unfold in_range in *. simpl. repeat split; try done; lia.
  - exact Hit.
  - done.
  - exists h', it'. destruct HP as (? & ? & ? & ?). done.
Qed.

Lemma moves_keep_cursor_witness :
  let it := snapshot sample_line 3 1 in
  let h : heap := {[ 0%nat := it ]} in
  h !! 0%nat = Some it /\ consistent it /\ in_range it /\
  exists h' it',
    run_moves 0%nat [MoveNext; MoveNext; MovePrev; MoveNext] h = Some (tt, h')
    /\ h' !! 0%nat = Some it' /\ in_range it'.
Proof.
  intros it h.
  assert (Hit : h !! 0%nat = Some it) by (vm_compute; reflexivity).
  assert (Hcons : consistent it) by reflexivity.
  assert (Hrange : in_range it) by (unfold in_range; simpl; lia).
  split; [exact Hit |]. split; [exact Hcons |]. split; [exact Hrange |].
  destruct (moves_keep_cursor 0%nat it h
              [MoveNext; MoveNext; MovePrev; MoveNext] Hit Hcons Hrange)
    as (h' & it' & Hrun & Hit' & _ & Hrange' & _).
  exists h', it'. split; [exact Hrun |]. split; [exact Hit' | exact Hrange'].
Defined.

(** X6: on a consistent cursor, a [next] that moves followed by [prev]
    brings the store back to what it was, and so does a [prev] that moves
    followed by [next]. *)
Theorem next_prev_roundtrip (this : ref) (it : LineTokensIterator) (h : heap) :
  h !! this = Some it -> consistent it ->
  (0 <= _tokenIndex it -> hasNext it = true ->
   (let! _ := next this in prev this) h = Some (Some this, h)) /\
  (_tokenIndex it < _tokenCount it -> hasPrev it = true ->
   (let! _ := prev this in next this) h = Some (Some this, h)).
Proof.
  intros Hit Hcons. split; intros Hidx Hguard; unfold M_bind.
  - rewrite (next_moves this it h Hit Hguard).
    rewrite (prev_moves this _ _ (lookup_insert_eq _ _ _));
      [| unfold hasPrev; simpl; apply Z.ltb_lt; lia].
    simpl. rewrite insert_insert_eq.
    replace (_tokenIndex it + 1 - 1) with (_tokenIndex it) by lia.
    rewrite <- Hcons. by rewrite insert_id.
  - rewrite (prev_moves this it h Hit Hguard).
    rewrite (next_moves this _ _ (lookup_insert_eq _ _ _));
      [| unfold hasNext; simpl; apply Z.ltb_lt; lia].
    simpl. rewrite insert_insert_eq.
    replace (_tokenIndex it - 1 + 1) with (_tokenIndex it) by lia.
    rewrite <- Hcons. by rewrite insert_id.
Qed.

Lemma next_prev_roundtrip_witness :
  let it := snapshot sample_line 3 1 in
  let h : heap := {[ 0%nat := it ]} in
  h !! 0%nat = Some it /\ consistent it /\
  (let! _ := next 0%nat in prev 0%nat) h = Some (Some 0%nat, h) /\
  (let! _ := prev 0%nat in next 0%nat) h = Some (Some 0%nat, h).
Proof.
  intros it h.
  assert (Hit : h !! 0%nat = Some it) by (vm_compute; reflexivity).
  assert (Hcons : consistent it) by reflexivity.
  split; [exact Hit |]. split; [exact Hcons |].
  destruct (next_prev_roundtrip 0%nat it h Hit Hcons) as [Hnp Hpn].
  split; [apply Hnp | apply Hpn]; simpl; try lia; reflexivity.
Defined.

(** X7: when a consistent cursor on a token moves with [next], the start
    offset it caches afterwards is the end offset it cached before. *)
Theorem next_starts_at_previous_end (this : ref) (it : LineTokensIterator)
    (h : heap) :
  h !! this = Some it -> consistent it ->
  0 <= _tokenIndex it -> hasNext it = true ->
  exists it',
    next this h = Some (Some this, <[this := it']> h) /\
    _startOffset it' = _endOffset it.
Proof.
  intros Hit Hcons Hidx Hguard. eexists.
  split; [exact (next_moves this it h Hit Hguard) |].
  assert (Hend : _endOffset it
                 = getEndOffset (_source it) (_tokenIndex it))
    by (unfold consistent in Hcons; by rewrite Hcons at 1).
  rewrite Hend. simpl.
  rewrite getStartOffset_pos by lia. f_equal. lia.
Qed.

Lemma next_starts_at_previous_end_witness :
  let it := snapshot sample_line 3 0 in
  let h : heap := {[ 0%nat := it ]} in
  h !! 0%nat = Some it /\ consistent it /\
  exists it',
    next 0%nat h = Some (Some 0%nat, <[0%nat := it']> h) /\
    _startOffset it' = Some 3.
Proof.
  intros it h.
  assert (Hit : h !! 0%nat = Some it) by (vm_compute; reflexivity).
  assert (Hcons : consistent it) by reflexivity.
  split; [exact Hit |]. split; [exact Hcons |].
  destruct (next_starts_at_previous_end 0%nat it h Hit Hcons)
    as (it' & Hnext & Hstart); [simpl; lia | reflexivity |].
  exists it'. split; [exact Hnext |]. rewrite Hstart. reflexivity.
Defined.

(** [k] calls of [next] that all have a next token move a consistent
    cursor [k] tokens on. *)
Lemma next_run (k : nat) :
  forall (h : heap) (this : ref) (it : LineTokensIterator),
    h !! this = Some it -> consistent it ->
    _tokenIndex it + Z.of_nat k < _tokenCount it ->
    run_moves this (replicate k MoveNext) h
    = Some (tt, <[this := snapshot (_source it) (_tokenCount it)
                                   (_tokenIndex it + Z.of_nat k)]> h).
Proof.
  induction k as [| k IH]; intros h this it Hit Hcons Hk.
  - simpl. unfold M_ret. rewrite Z.add_0_r, <- Hcons.
    by rewrite insert_id.
  - change (replicate (S k) MoveNext) with (MoveNext :: replicate k MoveNext).
    cbn [run_moves step]. unfold M_bind.
    rewrite (next_moves this it h Hit)
      by (unfold hasNext; apply Z.ltb_lt; lia).
    rewrite (IH _ this _ (lookup_insert_eq _ _ _) (snapshot_consistent _ _ _))
      by (simpl; lia).
    cbn [_source _tokenCount _tokenIndex snapshot].
    rewrite insert_insert_eq.
    replace (_tokenIndex it + 1 + Z.of_nat k)
      with (_tokenIndex it + Z.of_nat (S k)) by lia.
    reflexivity.
Qed.

(** [k] calls of [prev] that all have a previous token move a consistent
    cursor [k] tokens back. *)
Lemma prev_run (k : nat) :
  forall (h : heap) (this : ref) (it : LineTokensIterator),
    h !! this = Some it -> consistent it ->
    0 <= _tokenIndex it - Z.of_nat k ->
    run_moves this (replicate k MovePrev) h
    = Some (tt, <[this := snapshot (_source it) (_tokenCount it)
                                   (_tokenIndex it - Z.of_nat k)]> h).
Proof.
  induction k as [| k IH]; intros h this it Hit Hcons Hk.
  - simpl. unfold M_ret. rewrite Z.sub_0_r, <- Hcons.
    by rewrite insert_id.
  - change (replicate (S k) MovePrev) with (MovePrev :: replicate k MovePrev).
    cbn [run_moves step]. unfold M_bind.
    rewrite (prev_moves this it h Hit)
      by (unfold hasPrev; apply Z.ltb_lt; lia).
    rewrite (IH _ this _ (lookup_insert_eq _ _ _) (snapshot_consistent _ _ _))
      by (simpl; lia).
    cbn [_source _tokenCount _tokenIndex snapshot].
    rewrite insert_insert_eq.
    replace (_tokenIndex it - 1 - Z.of_nat k)
      with (_tokenIndex it - Z.of_nat (S k)) by lia.
    reflexivity.
Qed.

(** X8: on a line with text, the cursor of [firstToken] reaches token [k]
    after [k] calls of [next], for every token [k] of the buffer; on the last
    token it holds what the cursor of [lastToken] holds, and one more [next]
    answers [null]. *)
Theorem forward_traversal (this : LineTokens) (h : heap) :
  _textLength this <> 0 ->
  exists l l',
    h !! l = None /\
    firstToken this h
    = Some (Some l, <[l := snapshot this (getCount this) 0]> h) /\
    (forall k, 0 <= k < getCount this ->
       run_moves l (replicate (Z.to_nat k) MoveNext)
                 (<[l := snapshot this (getCount this) 0]> h)
       = Some (tt, <[l := snapshot this (getCount this) k]> h)) /\
    lastToken this h
    = Some (Some l',
            <[l' := snapshot this (getCount this) (getCount this - 1)]> h) /\
    next l (<[l := snapshot this (getCount this) (getCount this - 1)]> h)
    = Some (None,
            <[l := snapshot this (getCount this) (getCount this - 1)]> h).
Proof.
  intros Hfull. unfold firstToken, lastToken, getCount.
  destruct (Z.eqb_spec (_textLength this) 0) as [| _]; [done |].
  destruct (tokenAt_fresh this 0 h) as (l & Hl & Hfresh).
  destruct (tokenAt_fresh this (_tokensCount this - 1) h) as (l' & Hl' & _).
  exists l, l'. unfold M_bind. rewrite Hl, Hl'.
  split; [exact Hfresh |]. split; [reflexivity |].
  split; [| split; [reflexivity |]].
  - intros k Hk.
    rewrite (next_run (Z.to_nat k) _ l _ (lookup_insert_eq _ _ _)
               (snapshot_consistent _ _ _)) by (simpl; lia).
    cbn [_source _tokenCount _tokenIndex snapshot].
    rewrite insert_insert_eq.
    replace (0 + Z.of_nat (Z.to_nat k)) with k by lia.
    reflexivity.
  - apply (next_blocked l _ _ (lookup_insert_eq _ _ _)).
    unfold hasNext. simpl. apply Z.ltb_ge. lia.
Qed.

Lemma forward_traversal_witness :
  _textLength sample_line <> 0 /\
  exists l,
    firstToken sample_line ∅
    = Some (Some l, <[l := snapshot sample_line (getCount sample_line) 0]> ∅)
    /\ run_moves l (replicate (Z.to_nat 2) MoveNext)
         (<[l := snapshot sample_line (getCount sample_line) 0]> ∅)
       = Some (tt, <[l := snapshot sample_line (getCount sample_line) 2]> ∅).
Proof.
  assert (Hfull : _textLength sample_line <> 0) by (vm_compute; discriminate).
  split; [exact Hfull |].
  destruct (forward_traversal sample_line ∅ Hfull)
    as (l & _ & _ & Hfirst & Hrun & _).
  exists l. split; [exact Hfirst |]. apply Hrun.
  vm_compute. split; [discriminate | reflexivity].
Defined.

(** X9: on a line with text, the cursor of [lastToken] reaches token
    [N - 1 - k] after [k] calls of [prev]; on token [0] it holds what the
    cursor of [firstToken] holds, and one more [prev] answers [null]. *)
Theorem backward_traversal (this : LineTokens) (h : heap) :
  _textLength this <> 0 ->
  exists l l',
    h !! l = None /\
    lastToken this h
    = Some (Some l,
            <[l := snapshot this (getCount this) (getCount this - 1)]> h) /\
    (forall k, 0 <= k < getCount this ->
       run_moves l (replicate (Z.to_nat k) MovePrev)
         (<[l := snapshot this (getCount this) (getCount this - 1)]> h)
       = Some (tt, <[l := snapshot this (getCount this)
                                   (getCount this - 1 - k)]> h)) /\
    firstToken this h
    = Some (Some l', <[l' := snapshot this (getCount this) 0]> h) /\
    prev l (<[l := snapshot this (getCount this) 0]> h)
    = Some (None, <[l := snapshot this (getCount this) 0]> h).
Proof.
  intros Hfull. unfold firstToken, lastToken, getCount.
  destruct (Z.eqb_spec (_textLength this) 0) as [| _]; [done |].
  destruct (tokenAt_fresh this 0 h) as (l' & Hl' & _).
  destruct (tokenAt_fresh this (_tokensCount this - 1) h)
    as (l & Hl & Hfresh).
  exists l, l'. unfold M_bind. rewrite Hl, Hl'.
  split; [exact Hfresh |]. split; [reflexivity |].
  split; [| split; [reflexivity |]].
  - intros k Hk.
    rewrite (prev_run (Z.to_nat k) _ l _ (lookup_insert_eq _ _ _)
               (snapshot_consistent _ _ _)) by (simpl; lia).
    cbn [_source _tokenCount _tokenIndex snapshot].
    rewrite insert_insert_eq.
    replace (_tokensCount this - 1 - Z.of_nat (Z.to_nat k))
      with (_tokensCount this - 1 - k) by lia.
    reflexivity.
  - apply (prev_blocked l _ _ (lookup_insert_eq _ _ _)). reflexivity.
Qed.

Lemma backward_traversal_witness :
  _textLength sample_line <> 0 /\
  exists l,
    run_moves l (replicate (Z.to_nat 2) MovePrev)
      (<[l := snapshot sample_line (getCount sample_line)
                       (getCount sample_line - 1)]> ∅)
    = Some (tt, <[l := snapshot sample_line (getCount sample_line)
                                (getCount sample_line - 1 - 2)]> ∅).
Proof.
  assert (Hfull : _textLength sample_line <> 0) by (vm_compute; discriminate).
  split; [exact Hfull |].
  destruct (backward_traversal sample_line ∅ Hfull)
    as (l & _ & _ & _ & Hrun & _).
  exists l. apply Hrun. vm_compute. split; [discriminate | reflexivity].
Defined.

(** X10: on a well-formed buffer, a cursor created on a token by [tokenAt]
    and moved by any run of [next] and [prev] always caches numbers, never
    [undefined]: a start offset and an end offset with
    [0 <= start <= end <= text.length], and a metadata word. *)
Theorem well_formed_cursor (this : LineTokens) (i : Z) (h : heap)
    (ms : list move) :
  well_formed this = true -> 0 <= i < getCount this ->
  exists l h0 h' it' s e m,
    tokenAt this i None h = Some (l, h0) /\
    run_moves l ms h0 = Some (tt, h') /\ h' !! l = Some it' /\
    _startOffset it' = Some s /\ _endOffset it' = Some e /\
    _metadata it' = Some m /\
    0 <= s /\ s <= e /\ e <= _textLength this.
Proof.
  intros Hwf Hi. unfold getCount in Hi.
  destruct (tokenAt_fresh this i h) as (l & Hl & _).
  destruct (run_moves_preserves
              (fun x => consistent x /\ in_range x /\ _source x = this /\
                        _tokenCount x = _tokensCount this) l ms)
    with (h := <[l := snapshot this (_tokensCount this) i]> h)
         (it := snapshot this (_tokensCount this) i)
    as (h' & it' & Hrun & Hit' & (Hcons & Hrange & Hsrc & Hcnt) & _).
  - intros x (_ & Hx & Hsrc & Hcnt) Hguard.
    unfold hasNext in Hguard. apply Z.ltb_lt in Hguard.
    unfold in_range in *. simpl. repeat split; try done; lia.
  - intros x (_ & Hx & Hsrc & Hcnt) Hguard.
    unfold hasPrev in Hguard. apply Z.ltb_lt in Hguard.
    unfold in_range in *. simpl. repeat split; try done; lia.
  - apply lookup_insert_eq.
  - unfold in_range. simpl. repeat split; try done; lia.
  - unfold in_range in Hrange. rewrite Hcnt in Hrange.
    destruct (well_formed_token this (_tokenIndex it') Hwf Hrange)
      as (s & e & m & Hin & Hs & He & Hm & Hne).
    apply list_elem_of_lookup_2 in Hin.
    apply (well_formed_ranges this s e m Hwf) in Hin as [Hs0 Hlen].
    exists l, (<[l := snapshot this (_tokensCount this) i]> h), h', it',
           s, e, m.
    split; [exact Hl |]. split; [exact Hrun |]. split; [exact Hit' |].
    unfold consistent in Hcons. rewrite Hsrc in Hcons.
    rewrite Hcons. simpl.
    repeat split; try assumption. lia.
Qed.

Lemma well_formed_cursor_witness :
  well_formed sample_line = true /\ 0 <= 1 < getCount sample_line /\
  exists l h0 h' it' s e,
    tokenAt sample_line 1 None ∅ = Some (l, h0) /\
    run_moves l [MovePrev; MovePrev; MoveNext] h0 = Some (tt, h') /\
    h' !! l = Some it' /\
    _startOffset it' = Some s /\ _endOffset it' = Some e /\ s <= e.
Proof.
  assert (Hwf : well_formed sample_line = true) by (vm_compute; reflexivity).
  assert (Hi : 0 <= 1 < getCount sample_line)
    by (vm_compute; split; [discriminate | reflexivity]).
  split; [exact Hwf |]. split; [exact Hi |].
  destruct (well_formed_cursor sample_line 1 ∅
              [MovePrev; MovePrev; MoveNext] Hwf Hi)
    as (l & h0 & h' & it' & s & e & m & Hat & Hrun & Hit' & Hs & He & _
        & _ & Hse & _).
  exists l, h0, h', it', s, e.
  split; [exact Hat |]. split; [exact Hrun |]. split; [exact Hit' |].
  split; [exact Hs |]. split; [exact He | exact Hse].
Defined.

(** X11: on a buffer that counts no token but has text, [lastToken] does not
    answer [null]: it creates a cursor at index [-1] whose start offset is
    [0] and whose end offset and metadata word are [undefined], and on which
    [next] and [prev] both answer [null]. *)
Theorem lastToken_without_tokens (this : LineTokens) (h : heap) :
  getCount this = 0 -> _textLength this <> 0 ->
  exists l it,
    lastToken this h = Some (Some l, <[l := it]> h) /\ h !! l = None /\
    _tokenIndex it = -1 /\ _startOffset it = Some 0 /\
    _endOffset it = None /\ _metadata it = None /\
    next l (<[l := it]> h) = Some (None, <[l := it]> h) /\
    prev l (<[l := it]> h) = Some (None, <[l := it]> h).
Proof.
  intros Hcount Hfull. unfold lastToken, getCount in *.
  destruct (Z.eqb_spec (_textLength this) 0) as [| _]; [done |].
  rewrite Hcount.
  destruct (tokenAt_fresh this (0 - 1) h) as (l & Hl & Hfresh).
  exists l, (snapshot this 0 (-1)). unfold M_bind.
  rewrite Hcount in Hl. rewrite Hl.
  split; [reflexivity |]. split; [exact Hfresh |].
  split; [reflexivity |]. split; [reflexivity |].
  split; [reflexivity |]. split; [reflexivity |].
  split.
  - by apply (next_blocked l _ _ (lookup_insert_eq _ _ _)).
  - by apply (prev_blocked l _ _ (lookup_insert_eq _ _ _)).
Qed.

Lemma lastToken_without_tokens_witness :
  let this := {| _tokens := []; _text := "a" |} in
  getCount this = 0 /\ _textLength this <> 0 /\
  exists l it,
    lastToken this ∅ = Some (Some l, <[l := it]> ∅) /\
    _tokenIndex it = -1 /\ _endOffset it = None.
Proof.
  intros this.
  assert (Hcount : getCount this = 0) by reflexivity.
  assert (Hfull : _textLength this <> 0) by (vm_compute; discriminate).
  split; [exact Hcount |]. split; [exact Hfull |].
  destruct (lastToken_without_tokens this ∅ Hcount Hfull)
    as (l & it & Hlast & _ & Hidx & _ & Hend & _).
  exists l, it. split; [exact Hlast |]. split; [exact Hidx | exact Hend].
Defined.

(** X12: [tokenAt] with a cursor to reuse keeps the buffer and the token
    count that cursor was created with; when [other] is not that buffer, the
    next [next] on the cursor reads the cursor's own buffer again, at the
    index [tokenAt] left. *)
Theorem tokenAt_reuse_keeps_source (other : LineTokens) (i : Z) (dest : ref)
    (it : LineTokensIterator) (h : heap) :
  h !! dest = Some it -> i + 1 < _tokenCount it ->
  exists it1,
    tokenAt other i (Some dest) h = Some (dest, <[dest := it1]> h) /\
    _source it1 = _source it /\ _tokenCount it1 = _tokenCount it /\
    _tokenIndex it1 = i /\
    _startOffset it1 = getStartOffset other i /\
    _endOffset it1 = getEndOffset other i /\
    _metadata it1 = getMetadata other i /\
    (let! _ := tokenAt other i (Some dest) in next dest) h
    = Some (Some dest,
            <[dest := snapshot (_source it) (_tokenCount it) (i + 1)]> h).
Proof.
  intros Hit Hi. eexists.
  split; [exact (tokenAt_dest other i dest it h Hit) |].
  do 6 (split; [reflexivity |]).
  unfold M_bind. rewrite (tokenAt_dest other i dest it h Hit).
  rewrite (next_moves dest _ _ (lookup_insert_eq _ _ _))
    by (unfold hasNext; simpl; apply Z.ltb_lt; lia).
  cbn [_source _tokenCount _tokenIndex]. by rewrite insert_insert_eq.
Qed.

Lemma tokenAt_reuse_keeps_source_witness :
  let other := {| _tokens := [5; 9]; _text := "hello" |} in
  let it := snapshot sample_line 3 0 in
  let h : heap := {[ 0%nat := it ]} in
  h !! 0%nat = Some it /\ 0 + 1 < _tokenCount it /\
  (let! _ := tokenAt other 0 (Some 0%nat) in next 0%nat) h
  = Some (Some 0%nat, <[0%nat := snapshot sample_line 3 (0 + 1)]> h).
Proof.
  intros other it h.
  assert (Hit : h !! 0%nat = Some it) by (vm_compute; reflexivity).
  assert (Hi : 0 + 1 < _tokenCount it) by (simpl; lia).
  split; [exact Hit |]. split; [exact Hi |].
  destruct (tokenAt_reuse_keeps_source other 0 0%nat it h Hit Hi)
    as (it1 & _ & _ & _ & _ & _ & _ & _ & Hnext).
  exact Hnext.
Defined.

(** ** convertToEndOffset, continued *)

(** X13: an array with fewer than two slots holds no token, and the
    conversion leaves it as it is: the loop does not run and the final store
    falls outside the array, at slot [-2]. *)
Theorem convertToEndOffset_no_token (tokens : list Z) (lineTextLength : Z) :
  (List.length tokens < 2)%nat ->
  convertToEndOffset tokens lineTextLength = tokens.
Proof.
  intros Hshort. destruct tokens as [| x [| y rest]]; simpl in Hshort;
    [reflexivity | reflexivity | lia].
Qed.

Lemma convertToEndOffset_no_token_witness :
  (List.length [7] < 2)%nat /\ convertToEndOffset [7] 12 = [7].
Proof.
  assert (Hshort : (List.length [7] < 2)%nat) by (simpl; lia).
  split; [exact Hshort |]. exact (convertToEndOffset_no_token [7] 12 Hshort).
Defined.

Lemma lookup_get (a : list Z) (k : nat) : a !! k = JS.get a (Z.of_nat k).
Proof. rewrite get_nonneg, Nat2Z.id by lia. reflexivity. Qed.

Lemma even_slots_lookup (k : nat) :
  forall l : list Z, even_slots l !! k = l !! (2 * k)%nat.
Proof.
  induction k as [| k IH]; intros [| x [| y rest]]; try reflexivity.
  replace (2 * S k)%nat with (S (S (2 * k))) by lia.
  simpl. apply IH.
Qed.

Lemma even_slots_length (n : nat) :
  forall l : list Z,
    List.length l = (2 * n)%nat -> List.length (even_slots l) = n.
Proof.
  induction n as [| n IH]; intros [| x [| y rest]] Hlen; simpl in *;
    try lia.
  f_equal. apply IH. lia.
Qed.

Lemma increasing_lookup (l : list Z) :
  increasing l = true ->
  forall (k : nat) (a b : Z),
    l !! k = Some a -> l !! S k = Some b -> a < b.
Proof.
  induction l as [| x l IH]; intros Hinc k a b Ha Hb; [discriminate |].
  destruct l as [| y l']; [discriminate |].
  cbn [increasing] in Hinc. apply andb_true_iff in Hinc as [Hxy Hrest].
  destruct k as [| k].
  - simpl in Ha, Hb. injection Ha as <-. injection Hb as <-. lia.
  - apply (IH Hrest k); assumption.
Qed.

(** The slots after the conversion, for an array of unsigned 32-bit numbers
    whose indices do not wrap. *)
Lemma convertToEndOffset_slots (tokens : list Z) (lineTextLength : Z) :
  JS.index_safe tokens -> JS.uint32_elements tokens ->
  let N := JS.ushr (JS.length tokens) 1 in
  let r := convertToEndOffset tokens lineTextLength in
  JS.length r = JS.length tokens /\
  (forall i, 0 <= i < N - 1 ->
             JS.get r (2 * i) = JS.get tokens (2 * (i + 1))) /\
  (1 <= N -> JS.get r (2 * (N - 1)) = Some (JS.to_uint32 lineTextLength)) /\
  (forall k, Z.odd k = true -> JS.get r k = JS.get tokens k).
Proof.
  intros Hsafe Hu32 N r.
  assert (HN : N = JS.length tokens / 2) by (by apply tokenCount_safe).
  pose proof (length_nonneg tokens) as Hlen0.
  unfold JS.index_safe in Hsafe.
  assert (HN2 : 0 <= N /\ 2 * N <= JS.length tokens /\ N < 2 ^ 30).
  { rewrite HN. repeat split.
    - apply Z.div_pos; lia.
    - apply Z.mul_div_le. lia.
    - apply Z.div_lt_upper_bound; lia. }
  subst r. unfold convertToEndOffset. fold N.
  destruct (Z.le_gt_cases N 0) as [Hzero | Hpos].
  - assert (N = 0) as -> by lia. simpl.
    repeat split; try reflexivity; intros; lia.
  - destruct (convertToEndOffset_loop_spec (Z.to_nat (N - 1)) 0 tokens)
      as (Llen & Lmoved & Lkept); [lia | lia | lia | exact Hu32 |].
    rewrite shl_1_small by lia.
    split; [by rewrite length_set |]. split; [| split].
    + intros i Hi. rewrite get_set_ne by lia.
      rewrite Lmoved by lia. f_equal. lia.
    + intros _. rewrite get_set_eq by lia. reflexivity.
    + intros k Hodd.
      assert (Hne : forall j, k <> 2 * j)
        by (intros j ->; rewrite Z.odd_mul in Hodd; discriminate).
      rewrite get_set_ne by (intros Heq; by apply (Hne (N - 1))).
      apply Lkept. intros j _. apply Hne.
Qed.

Lemma start_offsets_facts (tokens : list Z) (len : Z) :
  start_offsets tokens len = true ->
  JS.index_safe tokens /\ JS.uint32_elements tokens /\
  JS.length tokens = 2 * JS.ushr (JS.length tokens) 1 /\
  1 <= JS.ushr (JS.length tokens) 1 < 2 ^ 30 /\
  tokens !! 0%nat = Some 0 /\
  (increasing (even_slots tokens ++ [len]) = true
   \/ JS.ushr (JS.length tokens) 1 = 1 /\ len = 0) /\
  len < 2 ^ 32.
Proof.
  unfold start_offsets. rewrite !andb_true_iff.
  intros ((((((Hsafe & Heven) & HN) & Hu32) & Hhead) & Hinc) & Hlen).
  apply Z.ltb_lt in Hsafe, Hlen. apply Z.leb_le in HN.
  apply bool_decide_eq_true in Hhead.
  assert (Hpair : JS.length tokens = 2 * JS.ushr (JS.length tokens) 1).
  { apply (paired_length {| _tokens := tokens; _text := "" |}).
    unfold paired. simpl. apply andb_true_iff. split; [| exact Heven].
    by apply Z.ltb_lt. }
  split; [exact Hsafe |]. split.
  { unfold JS.uint32_elements. apply Forall_forall. intros x Hx.
    rewrite forallb_forall in Hu32.
    specialize (Hu32 x (proj1 (list_elem_of_In _ _) Hx)).
    apply andb_true_iff in Hu32 as [H0 H32]. lia. }
  split; [exact Hpair |]. split; [lia |].
  split; [by rewrite <- head_lookup |]. split; [| exact Hlen].
  apply orb_true_iff in Hinc as [Hinc | Hdeg]; [by left | right].
  apply andb_true_iff in Hdeg as [H1 H0]. lia.
Qed.

(** X14: from an array of start offsets (two slots per token, the first
    token starting at [0], the starts increasing and below the length of
    the text) and the text of the line, the conversion makes the array of a
    well-formed buffer with the same number of tokens, in which every token
    has the start offset and the metadata word the array gave it. *)
Theorem convertToEndOffset_well_formed (tokens : list Z) (text : string) :
  start_offsets tokens (Z.of_nat (String.length text)) = true ->
  let this := {| _tokens := convertToEndOffset tokens
                              (Z.of_nat (String.length text));
                 _text := text |} in
  well_formed this = true /\
  getCount this = JS.ushr (JS.length tokens) 1 /\
  forall i, 0 <= i < getCount this ->
            getStartOffset this i = JS.get tokens (2 * i) /\
            getMetadata this i = JS.get tokens (2 * i + 1).
Proof.
  intros Hstarts this.
  set (len := Z.of_nat (String.length text)) in *.
  set (N := JS.ushr (JS.length tokens) 1).
  destruct (start_offsets_facts tokens len Hstarts)
    as (Hsafe & Hu32 & Hpair & HN & Hhead & Hinc & Hlen).
  fold N in Hpair, HN, Hinc.
  destruct (convertToEndOffset_slots tokens len Hsafe Hu32)
    as (Hrlen & Hmoved & Hlast & Hodd).
  fold N in Hmoved, Hlast.
  set (r := convertToEndOffset tokens len) in *.
  assert (Hcount : getCount this = N)
    by (unfold getCount, _tokensCount, this; simpl; fold r;
        by rewrite Hrlen).
  assert (Hlen32 : JS.to_uint32 len = len)
    by (unfold JS.to_uint32; apply Z.mod_small; lia).
  assert (Hacc : forall i, 0 <= i < N ->
            getStartOffset this i = JS.get tokens (2 * i) /\
            getMetadata this i = JS.get tokens (2 * i + 1)).
  { intros i Hi. unfold getStartOffset, getMetadata, this. simpl. fold r.
    rewrite (shl_1_small i) by lia. split.
    - destruct (Z.ltb_spec 0 i) as [Hpos | Hzero].
      + rewrite (shl_1_small (i - 1)) by lia.
        rewrite Hmoved by lia. f_equal. lia.
      + assert (i = 0) as -> by lia. change (2 * 0) with (Z.of_nat 0).
        rewrite <- lookup_get. by rewrite Hhead.
    - apply Hodd. rewrite Z.add_comm, Z.odd_add_mul_2. reflexivity. }
  split; [| split; [exact Hcount | by rewrite Hcount]].
  unfold well_formed. rewrite !andb_true_iff.
  assert (Hcnt : _tokensCount this = N) by exact Hcount.
  rewrite Hcnt.
  split; [split; [split |] |].
  - unfold paired, this. simpl. fold r. rewrite Hrlen, Hpair.
    apply andb_true_iff. unfold JS.index_safe in Hsafe. split.
    + apply Z.ltb_lt. lia.
    + rewrite Z.even_mul. reflexivity.
  - apply Z.leb_le. lia.
  - apply orb_true_iff.
    destruct Hinc as [Hinc | [H1 H0]];
      [left | right; apply andb_true_iff; split;
              [by apply Z.eqb_eq | by apply Z.eqb_eq]].
    apply forallb_forall. intros [[s e] m] Hin.
    apply list_elem_of_In, list_elem_of_lookup in Hin as [k Hk].
    unfold ranges, this in Hk. simpl in Hk. fold r in Hk.
    apply ranges_from_lookup in Hk as (He & _ & Hs).
    assert (HkN : Z.of_nat k < N).
    { apply lookup_lt_Some in He. unfold JS.length in Hrlen, Hpair. lia. }
    assert (Hslots : List.length (even_slots tokens) = Z.to_nat N)
      by (apply even_slots_length; unfold JS.length in Hpair; lia).
    apply Z.ltb_lt.
    apply (increasing_lookup _ Hinc k s e).
    + (* the start of token [k] is the start offset the array gave it *)
      rewrite lookup_app_l by lia. rewrite even_slots_lookup.
      destruct k as [| j]; [by subst s |].
      rewrite lookup_get in Hs. rewrite lookup_get.
      replace (Z.of_nat (2 * j)) with (2 * Z.of_nat j) in Hs by lia.
      rewrite Hmoved in Hs by lia. rewrite <- Hs. f_equal. lia.
    + (* its end is the next start offset, or the length of the text *)
      rewrite lookup_get in He.
      replace (Z.of_nat (2 * k)) with (2 * Z.of_nat k) in He by lia.
      destruct (decide (Z.of_nat k = N - 1)) as [Hk1 | Hk1].
      * rewrite Hk1, Hlast, Hlen32 in He by lia.
        rewrite lookup_app_r by lia.
        replace (S k - List.length (even_slots tokens))%nat with 0%nat
          by lia.
        exact He.
      * rewrite Hmoved in He by lia.
        rewrite lookup_app_l by lia. rewrite even_slots_lookup.
        rewrite lookup_get. rewrite <- He. f_equal. lia.
  - apply bool_decide_eq_true. unfold getEndOffset, _textLength, this.
    simpl. fold r. fold len.
    rewrite shl_1_small by lia. rewrite Hlast by lia.
    by rewrite Hlen32.
Qed.

Lemma convertToEndOffset_well_formed_witness :
  start_offsets [0; 101; 3; 102; 7; 103]
                (Z.of_nat (String.length "let x = 1")) = true /\
  well_formed {| _tokens := convertToEndOffset [0; 101; 3; 102; 7; 103]
                              (Z.of_nat (String.length "let x = 1"));
                 _text := "let x = 1" |} = true.
Proof.
  assert (Hstarts : start_offsets [0; 101; 3; 102; 7; 103]
                      (Z.of_nat (String.length "let x = 1")) = true)
    by (vm_compute; reflexivity).
  split; [exact Hstarts |].
  apply (convertToEndOffset_well_formed _ _ Hstarts).
Defined.
